(** * The form engine of [src/libs/form]: a shallow embedding

    The development follows the TypeScript module that exports [useForm]:
    the validator [validate], the metadata tracker [createMetadata], the
    state container ([set], [change], [confirm], [submit], [reset]) and the
    change notifier ([on], built on an rxjs [Subject]).

    Layout: the JavaScript data the module manipulates ([Js]), the rxjs
    subject ([Rx]), the module itself ([FormLib]), then the properties. *)

From Stdlib Require Import ZArith Lia.
From Stdlib Require Import Floats.SpecFloat.
From stdpp Require Import gmap strings list fin_maps pretty.

Local Open Scope string_scope.
Local Open Scope list_scope.

(* ===================================================================== *)
(** ** JavaScript values, objects and numbers                             *)
(* ===================================================================== *)

Module Js.

(** Field values have the TypeScript type [unknown]: the primitives, a
    number being an IEEE 754 binary64 as in the language, and references
    to functions and to other objects, which the form never looks into and
    which are told apart here by a name. *)
Inductive value : Type :=
| VUndefined
| VNull
| VBool (b : bool)
| VNumber (x : spec_float)
| VString (s : string)
| VFunction (name : string)
| VObject (name : string).

(** [typeof v] *)
Definition typeof (v : value) : string :=
  match v with
  | VUndefined => "undefined"
  | VNull => "object"
  | VBool _ => "boolean"
  | VNumber _ => "number"
  | VString _ => "string"
  | VFunction _ => "function"
  | VObject _ => "object"
  end.

(** An object is kept as the list of its own properties, in the order in
    which the engine enumerates them: the names that are array indices
    first, in ascending order, then the other names in the order in which
    they were created. *)
Definition obj (A : Type) : Type := list (string * A).

(** An object of field values. *)
Definition object : Type := obj value.

(** [Object.keys(o)] *)
Definition keys {A} (o : obj A) : list string := map fst o.

(** The own property of the name, if there is one. *)
Fixpoint lookup {A} (o : obj A) (key : string) : option A :=
  match o with
  | [] => None
  | (k, v) :: rest => if String.eqb k key then Some v else lookup rest key
  end.

(** What an object literal inherits from [Object.prototype] under a name,
    as far as the form reads it: a method with its [length], or, under
    [__proto__], the prototype itself, an object without a [length]. *)
Inductive inherited : Type :=
| InheritedMethod (length : nat)
| InheritedObject.

Definition object_prototype (name : string) : option inherited :=
  if String.eqb name "constructor" then Some (InheritedMethod 1)
  else if String.eqb name "hasOwnProperty" then Some (InheritedMethod 1)
  else if String.eqb name "isPrototypeOf" then Some (InheritedMethod 1)
  else if String.eqb name "propertyIsEnumerable" then Some (InheritedMethod 1)
  else if String.eqb name "__defineGetter__" then Some (InheritedMethod 2)
  else if String.eqb name "__defineSetter__" then Some (InheritedMethod 2)
  else if String.eqb name "__lookupGetter__" then Some (InheritedMethod 1)
  else if String.eqb name "__lookupSetter__" then Some (InheritedMethod 1)
  else if String.eqb name "toString" then Some (InheritedMethod 0)
  else if String.eqb name "toLocaleString" then Some (InheritedMethod 0)
  else if String.eqb name "valueOf" then Some (InheritedMethod 0)
  else if String.eqb name "__proto__" then Some InheritedObject
  else None.

(** [o[key]], for an object whose prototype is [Object.prototype]: the own
    property, or else what the object inherits under the name, or else
    [undefined]. *)
Definition get (o : object) (key : string) : value :=
  match lookup o key with
  | Some v => v
  | None =>
      match object_prototype key with
      | Some (InheritedMethod _) => VFunction key
      | Some InheritedObject => VObject "Object.prototype"
      | None => VUndefined
      end
  end.

(** [keys.includes(key)] *)
Fixpoint includes (l : list string) (key : string) : bool :=
  match l with
  | [] => false
  | k :: rest => if String.eqb k key then true else includes rest key
  end.

(** The value of a string of decimal digits, after the digits read so
    far. *)
Fixpoint digits_value (s : string) (acc : N) : option N :=
  match s with
  | EmptyString => Some acc
  | String c rest =>
      let d := Ascii.N_of_ascii c in
      if ((48 <=? d) && (d <=? 57))%N
      then digits_value rest (10 * acc + (d - 48))%N
      else None
  end.

(** The array index that a property name denotes: the name is the
    canonical decimal numeral of an integer from 0 to 2^32 - 2. *)
Definition array_index (name : string) : option N :=
  match name with
  | EmptyString => None
  | String c rest =>
      if (Ascii.N_of_ascii c =? 48)%N
      then match rest with EmptyString => Some 0%N | _ => None end
      else match digits_value name 0 with
           | Some n => if (n <? 4294967295)%N then Some n else None
           | None => None
           end
  end.

(** The own property [key] takes the value [v] and keeps its place. *)
Fixpoint replace {A} (o : obj A) (key : string) (v : A) : obj A :=
  match o with
  | [] => []
  | (k, w) :: rest =>
      if String.eqb k key then (k, v) :: rest else (k, w) :: replace rest key v
  end.

(** A new property whose name is the array index [i] goes after the array
    indices below [i] and before everything else. *)
Fixpoint insert_index {A} (o : obj A) (i : N) (key : string) (v : A)
    : obj A :=
  match o with
  | [] => [(key, v)]
  | (k, w) :: rest =>
      match array_index k with
      | Some i' =>
          if (i' <? i)%N then (k, w) :: insert_index rest i key v
          else (key, v) :: o
      | None => (key, v) :: o
      end
  end.

(** [{ ...o, [key]: v }]: a fresh object with the properties of [o] and the
    own property [key]; an existing property keeps its place and takes the
    new value, a new one is created: among the array indices when its name
    is one, last otherwise. A computed name defines an own property
    whatever the name, [__proto__] too. *)
Definition put {A} (o : obj A) (key : string) (v : A) : obj A :=
  if includes (keys o) key then replace o key v
  else match array_index key with
       | Some i => insert_index o i key v
       | None => o ++ [(key, v)]
       end.

(** [o[key] = s], for an object made by the literal [{}] and changed by
    such assignments only, and a string [s]. The object has no own
    property [__proto__], so this name reaches the setter it inherits from
    [Object.prototype], which ignores a value that is neither an object
    nor [null]: nothing is stored. Any other name becomes or stays an own
    property. *)
Definition assign (o : obj string) (key : string) (s : string) : obj string :=
  if String.eqb key "__proto__" then o else put o key s.

(** How the evaluation of a call ends: with a value, or with a thrown
    [TypeError]. *)
Inductive completion (A : Type) : Type :=
| Return (a : A)
| Throw (message : string).

Arguments Return {A} a.
Arguments Throw {A} message.

#[global] Instance obj_lookup {A} : Lookup string A (obj A) :=
  λ key o, lookup o key.

(** *** Numbers *)

Definition prec : Z := 53.
Definition emax : Z := 1024.

(** The number denoted by an integer. *)
Definition of_Z (z : Z) : spec_float := binary_normalize prec emax z 0 false.

(** [x / y] and [x * y] *)
Definition div (x y : spec_float) : spec_float := SFdiv prec emax x y.
Definition mul (x y : spec_float) : spec_float := SFmul prec emax x y.

(** The integer [n] for which [n / 100 - m * 2^e] is closest to zero, the
    larger one when two are as close ([Number.prototype.toFixed], f = 2). *)
Definition hundredths (m : positive) (e : Z) : Z :=
  match e with
  | Zneg p => ((200 * Zpos m + 2 ^ Zpos p) / (2 * 2 ^ Zpos p))%Z
  | _ => (100 * Zpos m * 2 ^ e)%Z
  end.

(** [m * 2^e >= 10^21] *)
Definition ge_1e21 (m : positive) (e : Z) : bool :=
  match e with
  | Zneg p => (10 ^ 21 * 2 ^ Zpos p <=? Zpos m)%Z
  | _ => (10 ^ 21 <=? Zpos m * 2 ^ e)%Z
  end.

(** [+x.toFixed(2)]: the decimal numeral with two fraction digits that
    [toFixed] prints, read back as a number by unary plus. ["NaN"] and
    ["Infinity"] read back as themselves, and so does the shortest
    numeral printed for a number of magnitude [10^21] or more; the numeral
    [n / 100] reads back as the binary64 nearest to it. *)
Definition toFixed2_number (x : spec_float) : spec_float :=
  match x with
  | S754_nan => S754_nan
  | S754_infinity s => S754_infinity s
  | S754_zero _ => S754_zero false
  | S754_finite s m e =>
      if ge_1e21 m e then x
      else match hundredths m e with
           | Zpos n => div (S754_finite s n 0) (S754_finite false 100 0)
           | _ => S754_zero s
           end
  end.

End Js.

(* ===================================================================== *)
(** ** The rxjs subject behind the change notifier                        *)
(* ===================================================================== *)

Module Rx.

Section Subject.
Context {E : Type}.

(** A subscriber of the subject, seen through [pipe(filter(p))]: the
    predicate of the pipe and the events its observer has been handed,
    oldest first. *)
Record subscription : Type := Subscription {
  sub_filter : E → bool;
  sub_received : list E;
}.

(** The subject: its subscribers, in subscription order. *)
Abbreviation subject := (list subscription) (only parsing).

Definition deliver (event : E) (s : subscription) : subscription :=
  if sub_filter s event
  then {| sub_filter := sub_filter s;
          sub_received := sub_received s ++ [event] |}
  else s.

(** [subject.next(event)]: every current subscriber is offered the
    event, in subscription order. *)
Definition next (event : E) (subj : subject) : subject :=
  deliver event <$> subj.

(** [observable.subscribe(observer)] on a piped observable: a new
    subscriber, last in order, that has received nothing yet. *)
Definition subscribe (p : E → bool) (subj : subject) : subject :=
  subj ++ [{| sub_filter := p; sub_received := [] |}].

(** What the [i]-th subscriber has received. *)
Definition received (i : nat) (subj : subject) : option (list E) :=
  sub_received <$> subj !! i.
End Subject.

Arguments subscription : clear implicits.

(** The subject of events of type [E]. *)
Abbreviation subject E := (list (subscription E)) (only parsing).

End Rx.


(* ===================================================================== *)
(** ** The form module                                                    *)
(* ===================================================================== *)

Module FormLib.

(** *** Types of [defs.ts] *)

Abbreviation Values := Js.object (only parsing).

(** A validation function. [validate] calls it with the field's value and
    the whole value object; it answers with an error message, the empty
    string when the value is fine. *)
Definition Fn : Type := Js.value → Values → string.

(** [Fns<V>]: the own properties of the rules object, an object literal,
    each a list of functions. A property given as [undefined] counts as the
    empty list, which is what [?? []] makes of it. *)
Abbreviation Fns := (gmap string (list Fn)) (only parsing).

(** [Errors<V>]: an error message per key. [errors !! key] is the own
    property of the name; a name without one reads through to
    [Object.prototype]. *)
Abbreviation Errors := (Js.obj string) (only parsing).

(** The object [validate] returns. Counts are whole numbers far below
    2^53, where number arithmetic is exact: they are kept as integers. *)
Record ValidationResult : Type := {
  invalid : bool;
  errors : Errors;
  valid : bool;
  validCount : Z;
  progress : spec_float;
  invalidCount : Z;
}.

Record Metadata : Type := {
  touched : bool;
  untouched : bool;
  confirmed : bool;
  unconfirmed : bool;
}.

Record OnEvent : Type := {
  key : string;
  value : Js.value;
}.

(** *** [validate] *)

(** What the loop over [safeFns] finds at the indices below
    [safeFns.length], [safeFns] being [fns[key] ?? []]. An own property of
    the rules object is a list of functions. Without one the read follows
    the prototype chain of the object literal: an inherited method is a
    function object with a [length] and no element, so every index below
    its length reads [undefined]; the prototype itself has no [length], as
    has no name that is not inherited at all, and nothing is found. *)
Definition read_rules (fns : Fns) (key : string) : list (option Fn) :=
  match fns !! key with
  | Some l => Some <$> l
  | None =>
      match Js.object_prototype key with
      | Some (Js.InheritedMethod n) => replicate n None
      | _ => []
      end
  end.

(** The variables of [validate] that its loops update, whether a
    [TypeError] has been thrown, and a record of the validation functions
    called so far: the key and the index [j] of each call, oldest first.
    The record is not program state; it is what lets a property say that a
    function was not called. *)
Record Locals : Type := {
  l_invalid : bool;
  l_invalidCount : Z;
  l_errors : Errors;
  l_called : list (string * nat);
  l_thrown : bool;
}.

Definition locals0 : Locals :=
  {| l_invalid := false; l_invalidCount := 0; l_errors := [];
     l_called := []; l_thrown := false |}.

(** The inner loop from index [j] on, [safeFns] being what is left to
    find: the first non-empty answer is recorded and ends the loop; calling
    [undefined] throws. *)
Fixpoint fns_loop (key : string) (val : Js.value) (values : Values)
    (safeFns : list (option Fn)) (j : nat) (st : Locals) : Locals :=
  match safeFns with
  | [] => st
  | None :: _ =>
      {| l_invalid := l_invalid st;
         l_invalidCount := l_invalidCount st;
         l_errors := l_errors st;
         l_called := l_called st;
         l_thrown := true |}
  | Some fn :: rest =>
      let error := fn val values in
      let called := l_called st ++ [(key, j)] in
      if negb (String.eqb error "") then
        {| l_invalid := true;
           l_invalidCount := l_invalidCount st + 1;
           l_errors := Js.assign (l_errors st) key error;
           l_called := called;
           l_thrown := l_thrown st |}
      else
        fns_loop key val values rest (S j)
          {| l_invalid := l_invalid st;
             l_invalidCount := l_invalidCount st;
             l_errors := l_errors st;
             l_called := called;
             l_thrown := l_thrown st |}
  end.

(** The outer loop over what is left of [keys]; a thrown error ends it. *)
Fixpoint keys_loop (keys : list string) (values : Values) (fns : Fns)
    (st : Locals) : Locals :=
  match keys with
  | [] => st
  | key :: rest =>
      let safeFns := read_rules fns key in
      let val := Js.get values key in
      let st := {| l_invalid := l_invalid st;
                   l_invalidCount := l_invalidCount st;
                   l_errors := Js.assign (l_errors st) key "";
                   l_called := l_called st;
                   l_thrown := l_thrown st |} in
      let st := fns_loop key val values safeFns 0 st in
      if l_thrown st then st else keys_loop rest values fns st
  end.

Definition validate_locals (keys : list string) (values : Values)
    (fns : Fns) : Locals :=
  keys_loop keys values fns locals0.

(** The object that lines 42 to 51 build from the variables of the loops.
    It is what [validate] returns; when the loops threw, the call returns
    nothing ([validate_call]). *)
Definition validate (keys : list string) (values : Values) (fns : Fns)
    : ValidationResult :=
  let st := validate_locals keys values fns in
  let validCount := (Z.of_nat (length keys) - l_invalidCount st)%Z in
  {| invalid := l_invalid st;
     errors := l_errors st;
     valid := negb (l_invalid st);
     validCount := validCount;
     progress :=
       Js.toFixed2_number
         (Js.mul (Js.div (Js.of_Z validCount)
                         (Js.of_Z (Z.of_nat (length keys))))
                 (Js.of_Z 100));
     invalidCount := l_invalidCount st |}.

(** The call [validate(keys, values, fns)]. *)
Definition validate_call (keys : list string) (values : Values) (fns : Fns)
    : Js.completion ValidationResult :=
  if l_thrown (validate_locals keys values fns)
  then Js.Throw "fn is not a function"
  else Js.Return (validate keys values fns).

(** The calls [validate] makes to validation functions, in order. *)
Definition validate_calls (keys : list string) (values : Values)
    (fns : Fns) : list (string * nat) :=
  l_called (validate_locals keys values fns).

(** *** [createMetadata] and [isDebugAvailable] *)

Definition createMetadata (touched confirmed : bool) : Metadata :=
  {| touched := touched;
     untouched := negb touched;
     confirmed := confirmed;
     unconfirmed := negb confirmed |}.

(** [/localhost/.test(window.location.href)], the address being given. *)
Definition isDebugAvailable (href : string) : bool :=
  match String.index 0 "localhost" href with
  | Some _ => true
  | None => false
  end.

(** *** [useForm] *)

(** What a form is created from: the two arguments of [useForm], taken to be
    the same at every render, and the address of the page it runs in. *)
Record Setup : Type := {
  initValues : Values;
  fns : Fns;
  href : string;
}.

(** The event [change] takes: [e.target.value] and [e.target.name] of an
    input element, both strings. *)
Record InputChange : Type := {
  target_value : string;
  target_name : string;
}.

(** The mutable part of a form: the three refs, the subject with its
    subscribers, the render counter, and the two things outside the form
    that it acts on, the console and the submit events whose default
    action it has prevented. *)
Record State : Type := {
  values : Values;
  result : ValidationResult;
  metadata : Metadata;
  changed : Rx.subject OnEvent;
  counter : nat;
  console : list string;
  prevented : nat;
}.

Section UseForm.
Variable F : Setup.

Definition keys : list string := Js.keys (initValues F).
Definition initResult : ValidationResult :=
  validate keys (initValues F) (fns F).
Definition initMetadata : Metadata := createMetadata false false.

(** The form right after [useForm] has run for the first time. *)
Definition useForm : State :=
  {| values := initValues F;
     result := initResult;
     metadata := initMetadata;
     changed := [];
     counter := 0;
     console := [];
     prevented := 0 |}.

(** The first run of [useForm]: it ends like the call of [validate] that
    computes [initResult]. A form that exists was built by a call that
    returned. *)
Definition useForm_call : Js.completion State :=
  match validate_call keys (initValues F) (fns F) with
  | Js.Return _ => Js.Return useForm
  | Js.Throw message => Js.Throw message
  end.

(** [set(key, value)]. The form exists, so the call of [validate] that built
    it returned; the keys and the rules being the same at every call, the
    calls of [validate] in [set] and [confirm] return as well, and the
    object they return is [validate]. *)
Definition set (st : State) (k : string) (v : Js.value) : State :=
  let values' := Js.put (values st) k v in
  {| values := values';
     result := validate keys values' (fns F);
     metadata := createMetadata true (confirmed (metadata st));
     changed := Rx.next {| key := k; value := v |} (changed st);
     counter := S (counter st);
     console := console st;
     prevented := prevented st |}.

Definition console_error (st : State) (msg : string) : State :=
  {| values := values st;
     result := result st;
     metadata := metadata st;
     changed := changed st;
     counter := counter st;
     console := console st ++ [msg];
     prevented := prevented st |}.

Definition change (st : State) (e : InputChange) : State :=
  let v := target_value e in
  let k := target_name e in
  if negb (isDebugAvailable (href F)) then set st k (Js.VString v)
  else if String.eqb k "" then
    console_error st "Lack of name property in input element"
  else if negb (Js.includes keys k) then
    console_error st
      "Unsupported property used as name attribute in input element"
  else if negb (String.eqb (Js.typeof (Js.get (values st) k))
                           (Js.typeof (Js.VString v))) then
    console_error st
      "Unsupported change detected. You trying to change non string property with string value"
  else set st k (Js.VString v).

Definition confirm (st : State) : State :=
  {| values := values st;
     result := validate keys (values st) (fns F);
     metadata := createMetadata (touched (metadata st)) true;
     changed := changed st;
     counter := S (counter st);
     console := console st;
     prevented := prevented st |}.

Definition submit (st : State) : State :=
  confirm
    {| values := values st;
       result := result st;
       metadata := metadata st;
       changed := changed st;
       counter := counter st;
       console := console st;
       prevented := S (prevented st) |}.

Definition reset (st : State) : State :=
  {| values := initValues F;
     result := initResult;
     metadata := initMetadata;
     changed := changed st;
     counter := S (counter st);
     console := console st;
     prevented := prevented st |}.

(** [on(key, filterFn)]: the observable is the subject seen through
    [filter(filterFn)]; without a second argument the predicate is
    [event.key === key]. *)
Definition on (k : string) (filterFn : option (OnEvent → bool))
    : OnEvent → bool :=
  match filterFn with
  | Some p => p
  | None => fun event => String.eqb (key event) k
  end.

(** A consumer subscribes to an observable obtained from [on]. *)
Definition subscribe (st : State) (p : OnEvent → bool) : State :=
  {| values := values st;
     result := result st;
     metadata := metadata st;
     changed := Rx.subscribe p (changed st);
     counter := counter st;
     console := console st;
     prevented := prevented st |}.

(** *** Running a form *)

(** One call on the form's handle. *)
Inductive Call : Type :=
| CallSet (k : string) (v : Js.value)
| CallChange (e : InputChange)
| CallConfirm
| CallSubmit
| CallReset
| CallSubscribe (p : OnEvent → bool).

Definition call (st : State) (c : Call) : State :=
  match c with
  | CallSet k v => set st k v
  | CallChange e => change st e
  | CallConfirm => confirm st
  | CallSubmit => submit st
  | CallReset => reset st
  | CallSubscribe p => subscribe st p
  end.

(** A sequence of calls, first to last. *)
Definition run (st : State) (cs : list Call) : State :=
  fold_left call cs st.

End UseForm.

End FormLib.

(* ===================================================================== *)
(** ** Vocabulary of the properties                                       *)
(* ===================================================================== *)

Import FormLib.

(** What the inner loop of [validate] leaves for one field: the answer of
    the first function of the list that is not the empty string, the empty
    string when there is none. *)
Fixpoint first_error (val : Js.value) (values : Values) (safeFns : list Fn)
    : string :=
  match safeFns with
  | [] => ""
  | fn :: rest =>
      if negb (String.eqb (fn val values) "") then fn val values
      else first_error val values rest
  end.

(** How many functions of the list the inner loop calls. *)
Fixpoint calls_made (val : Js.value) (values : Values) (safeFns : list Fn)
    : nat :=
  match safeFns with
  | [] => 0
  | fn :: rest =>
      if negb (String.eqb (fn val values) "") then 1
      else S (calls_made val values rest)
  end.

Definition key_error (values : Values) (fns : Fns) (k : string) : string :=
  first_error (Js.get values k) values (default [] (fns !! k)).

Definition key_calls (values : Values) (fns : Fns) (k : string)
    : list (string * nat) :=
  (λ j, (k, j)) <$>
    seq 0 (calls_made (Js.get values k) values (default [] (fns !! k))).

(** The key makes [validate] throw: the rules object has no own property
    of the name and inherits a method that declares parameters, so that the
    inner loop calls [undefined]. *)
Definition throws_on (fns : Fns) (k : string) : bool :=
  match fns !! k with
  | Some _ => false
  | None =>
      match Js.object_prototype k with
      | Some (Js.InheritedMethod (S _)) => true
      | _ => false
      end
  end.

(** [validate] throws on these keys and functions, whatever the values. *)
Definition validate_throws (keys : list string) (fns : Fns) : bool :=
  existsb (throws_on fns) keys.

(** The keys that the outer loop reaches: all of them, or those up to the
    first on which it throws. *)
Fixpoint validated_keys (keys : list string) (fns : Fns) : list string :=
  match keys with
  | [] => []
  | k :: rest => if throws_on fns k then [k] else k :: validated_keys rest fns
  end.

(** The keys for which [errors] gets an own property: those the loop
    reaches, [__proto__] apart. *)
Definition recorded_keys (keys : list string) (fns : Fns) : list string :=
  filter (λ k, k ≠ "__proto__") (validated_keys keys fns).

(** One turn of the outer loop in closed form. *)
Definition key_step (values : Values) (fns : Fns) (k : string) (st : Locals)
    : Locals :=
  let e := key_error values fns k in
  let failed := negb (String.eqb e "") in
  {| l_invalid := if failed then true else l_invalid st;
     l_invalidCount := if failed then (l_invalidCount st + 1)%Z
                       else l_invalidCount st;
     l_errors := Js.assign (l_errors st) k e;
     l_called := l_called st ++ key_calls values fns k;
     l_thrown := throws_on fns k |}.

(** The integer [n] is a nearest whole number of hundredths to the
    percentage [100 * num / den]: [| n/100 - 100*num/den | <= 1/200]. *)
Definition nearest_hundredths (num den n : Z) : Prop :=
  (2 * Z.abs (10000 * num - n * den) ≤ den)%Z.

(** The three reasons for which [change] may turn an event down: no name,
    a name that is not a key of the form, a stored value whose [typeof] is
    not that of the event's value. *)
Definition change_rejectable (F : Setup) (st : State) (e : InputChange)
    : Prop :=
  target_name e = "" ∨
  target_name e ∉ keys F ∨
  Js.typeof (Js.get (values st) (target_name e)) ≠
    Js.typeof (Js.VString (target_value e)).

(** [change] skipped the mutation: values, result and metadata are as
    before, no subscriber was handed anything, nothing was re-rendered. *)
Definition change_skipped (F : Setup) (st : State) (e : InputChange) : Prop :=
  let st' := change F st e in
  values st' = values st ∧
  result st' = result st ∧
  metadata st' = metadata st ∧
  changed st' = changed st ∧
  counter st' = counter st.

(** The expression that [validate] evaluates for [progress]. *)
Definition progress_of (validCount total : Z) : spec_float :=
  Js.toFixed2_number
    (Js.mul (Js.div (Js.of_Z validCount) (Js.of_Z total)) (Js.of_Z 100)).

(** Equality of numbers as data (not [===]). *)
Definition sf_eqb (x y : spec_float) : bool :=
  match x, y with
  | S754_zero a, S754_zero b => Bool.eqb a b
  | S754_infinity a, S754_infinity b => Bool.eqb a b
  | S754_nan, S754_nan => true
  | S754_finite a m e, S754_finite b m' e' =>
      Bool.eqb a b && Pos.eqb m m' && Z.eqb e e'
  | _, _ => false
  end.

(** [progress_of validCount total] is the number read from a numeral
    [n / 100] with [n] a nearest whole number of hundredths: [n] is looked
    for on both sides of the exact quotient. *)
Definition progress_exact (validCount total : Z) : bool :=
  let n0 := (10000 * validCount / total)%Z in
  let p := progress_of validCount total in
  let ok n :=
    sf_eqb p (Js.div (Js.of_Z n) (Js.of_Z 100)) &&
    (2 * Z.abs (10000 * validCount - n * total) <=? total)%Z in
  ok n0 || ok (n0 + 1)%Z.

Definition progress_exact_upto (N : Z) : bool :=
  forallb (λ total, forallb (λ c, progress_exact c total) (seqZ 0 (total + 1)))
          (seqZ 1 N).

(** *** The form of the two-field scenario *)

Definition must_contain_at : Fn := λ val _,
  match val with
  | Js.VString s =>
      match String.index 0 "@" s with
      | Some _ => ""
      | None => "must contain @"
      end
  | _ => "must contain @"
  end.

Definition at_least_18 : Fn := λ val _,
  match val with
  | Js.VNumber x =>
      if SFleb (Js.of_Z 18) x then "" else "must be ≥ 18"
  | _ => "must be ≥ 18"
  end.

Definition scenario : Setup :=
  {| initValues := [("email", Js.VString ""); ("age", Js.VNumber (Js.of_Z 0))];
     fns := {[ "email" := [must_contain_at]; "age" := [at_least_18] ]};
     href := "http://localhost:3000/" |}.

(** The scenario's two calls: a good address, then a good age. *)
Definition scenario_email : State :=
  set scenario (useForm scenario) "email" (Js.VString "a@b.com").

Definition scenario_age : State :=
  set scenario scenario_email "age" (Js.VNumber (Js.of_Z 20)).

(** The same form served from an address without [localhost] in it. *)
Definition scenario_deployed : Setup :=
  {| initValues := initValues scenario;
     fns := fns scenario;
     href := "https://forms.example.org/signup" |}.

(** *** A form with a field named [__proto__] *)

(** The initial values parsed from the JSON text
    [{"__proto__": "", "a": ""}]: both names are own properties. *)
Definition proto_values : Values :=
  [("__proto__", Js.VString ""); ("a", Js.VString "")].

Definition proto_form : Setup :=
  {| initValues := proto_values; fns := ∅; href := "http://localhost:3000/" |}.

Definition required : Fn := λ val _,
  match val with
  | Js.VString "" => "required"
  | _ => ""
  end.

(** *** Rounding to two decimals *)

(** [p] is [x] rounded to two decimals and read back as a number, in the
    words of [Number.prototype.toFixed]: for a finite [x] below [10^21] in
    magnitude, [n] is the integer for which [n / 100 - |x|] is as close
    to zero as possible, the larger one if there are two, that is
    [n - 1/2 <= 100 |x| < n + 1/2], and [p] is the number nearest to
    [n / 100], with the sign of [x]. [|x|] is [num / den]. *)
Definition rounded_to_2_decimals (x p : spec_float) : Prop :=
  match x with
  | S754_nan => p = S754_nan
  | S754_infinity s => p = S754_infinity s
  | S754_zero _ => p = S754_zero false
  | S754_finite s m e =>
      let num := (Zpos m * 2 ^ Z.max e 0)%Z in
      let den := (2 ^ Z.max (- e) 0)%Z in
      if (10 ^ 21 * den <=? num)%Z then p = x
      else ∃ n : Z,
        ((2 * n - 1) * den ≤ 200 * num < (2 * n + 1) * den)%Z ∧
        p = match n with
            | Zpos q => Js.div (S754_finite s q 0) (S754_finite false 100 0)
            | _ => S754_zero s
            end
  end.

(** The percentage [100 * validCount / total] of the spec, rounded to two
    decimals in exact arithmetic (a half goes up), in hundredths. *)
Definition exactly_rounded_hundredths (validCount total : Z) : Z :=
  ((2 * 10000 * validCount + total) / (2 * total))%Z.

(** *** A form of 160 checkboxes, 23 of them checked *)

Definition box_name (i : nat) : string := String.append "box" (pretty i).

Definition checked : Fn := λ val _,
  match val with
  | Js.VBool true => ""
  | _ => "unchecked"
  end.

Definition boxes : Setup :=
  {| initValues :=
       (λ i, (box_name i, Js.VBool (i <? 23)%nat)) <$> seq 0 160;
     fns := list_to_map ((λ i, (box_name i, [checked])) <$> seq 0 160);
     href := "http://localhost:3000/" |}.

(** *** Vocabulary of the further properties *)

(** Whether [change] hands the event on to [set]: always outside the debug
    posture, and inside it when none of the three checks fires. *)
Definition change_accepts (F : Setup) (st : State) (e : InputChange) : bool :=
  negb (isDebugAvailable (href F)) ||
  (negb (String.eqb (target_name e) "") &&
   Js.includes (keys F) (target_name e) &&
   String.eqb (Js.typeof (Js.get (values st) (target_name e)))
              (Js.typeof (Js.VString (target_value e)))).

(** The event that a call passes to [changed.next], if it passes one. *)
Definition call_event (F : Setup) (st : State) (c : Call) : option OnEvent :=
  match c with
  | CallSet k v => Some {| key := k; value := v |}
  | CallChange e =>
      if change_accepts F st e
      then Some {| key := target_name e;
                   value := Js.VString (target_value e) |}
      else None
  | _ => None
  end.

(** The events passed to [changed.next] during a sequence of calls, oldest
    first. *)
Fixpoint emitted (F : Setup) (st : State) (cs : list Call) : list OnEvent :=
  match cs with
  | [] => []
  | c :: rest => option_list (call_event F st c) ++ emitted F (call F st c) rest
  end.

Definition is_submit (c : Call) : bool :=
  match c with CallSubmit => true | _ => false end.

Definition is_reset (c : Call) : bool :=
  match c with CallReset => true | _ => false end.

(** [confirm()], directly or through [submit]. *)
Definition is_confirming (c : Call) : bool :=
  match c with CallConfirm | CallSubmit => true | _ => false end.

(** The calls that re-render without passing an event on. *)
Definition is_silent_update (c : Call) : bool :=
  match c with CallConfirm | CallSubmit | CallReset => true | _ => false end.

(** A validation function that reads the field's own value only. *)
Definition own_value_only (fn : Fn) : Prop :=
  ∀ val values1 values2, fn val values1 = fn val values2.

(** A call that names a field names a key of the form. *)
Definition call_key_known (F : Setup) (c : Call) : Prop :=
  match c with
  | CallSet k _ => k ∈ keys F
  | CallChange e => target_name e ∈ keys F
  | _ => True
  end.

(** [needle] occurs in [s]. *)
Definition occurs_in (needle s : string) : Prop :=
  ∃ before after, s = String.append before (String.append needle after).

(* ===================================================================== *)
(** ** Objects                                                            *)
(* ===================================================================== *)

Lemma eqb_empty_false (s : string) : s ≠ "" → String.eqb s "" = false.
Proof. intros H. by apply String.eqb_neq. Qed.

Lemma includes_true (l : list string) k : Js.includes l k = true ↔ k ∈ l.
Proof.
  induction l as [|k' l IH]; simpl.
  - split; [done|by intros ?%elem_of_nil].
  - destruct (String.eqb k' k) eqn:E.
    + apply String.eqb_eq in E. subst. split; [intros _; left|done].
    + apply String.eqb_neq in E. rewrite IH, elem_of_cons. intuition congruence.
Qed.

Lemma includes_false (l : list string) k : Js.includes l k = false ↔ k ∉ l.
Proof. rewrite <- includes_true. by destruct (Js.includes l k). Qed.

Section Objects.
Context {A : Type}.
Implicit Types (o : Js.obj A) (k : string) (v : A).

Lemma lookup_None_keys o k : Js.lookup o k = None ↔ k ∉ Js.keys o.
Proof.
  unfold Js.keys. induction o as [|[k' w] o IH]; simpl.
  - split; [intros _; apply not_elem_of_nil|done].
  - destruct (String.eqb k' k) eqn:E.
    + apply String.eqb_eq in E. subst. split; [done|]. intros H. exfalso.
      apply H. left.
    + apply String.eqb_neq in E. rewrite IH, not_elem_of_cons.
      intuition congruence.
Qed.

Lemma keys_replace o k v : Js.keys (Js.replace o k v) = Js.keys o.
Proof.
  unfold Js.keys. induction o as [|[k' w] o IH]; simpl; [done|].
  destruct (String.eqb k' k); simpl; [done|by rewrite IH].
Qed.

Lemma lookup_replace_eq o k v :
  k ∈ Js.keys o → Js.lookup (Js.replace o k v) k = Some v.
Proof.
  unfold Js.keys. induction o as [|[k' w] o IH]; simpl.
  - by intros ?%elem_of_nil.
  - intros Hin. destruct (String.eqb k' k) eqn:E; simpl; rewrite E; [done|].
    apply IH. apply elem_of_cons in Hin as [->|Hin]; [|done].
    by rewrite String.eqb_refl in E.
Qed.

Lemma lookup_replace_ne o k k' v :
  k' ≠ k → Js.lookup (Js.replace o k v) k' = Js.lookup o k'.
Proof.
  intros Hne. induction o as [|[k0 w] o IH]; simpl; [done|].
  destruct (String.eqb k0 k) eqn:E; simpl.
  - apply String.eqb_eq in E. subst k0.
    by rewrite (proj2 (String.eqb_neq k k')).
  - by rewrite IH.
Qed.

Lemma replace_replace_same o k v w :
  Js.replace (Js.replace o k v) k w = Js.replace o k w.
Proof.
  induction o as [|[k' u] o IH]; simpl; [done|].
  destruct (String.eqb k' k) eqn:E; simpl; rewrite E; [done|by rewrite IH].
Qed.

Lemma replace_replace_comm o k1 v1 k2 v2 :
  k1 ≠ k2 →
  Js.replace (Js.replace o k1 v1) k2 v2 = Js.replace (Js.replace o k2 v2) k1 v1.
Proof.
  intros Hne. induction o as [|[k u] o IH]; simpl; [done|].
  destruct (String.eqb k k1) eqn:E1, (String.eqb k k2) eqn:E2; simpl;
    rewrite ?E1, ?E2; try done.
  - apply String.eqb_eq in E1, E2. congruence.
  - by rewrite IH.
Qed.

Lemma lookup_insert_index_ne o i k k' v :
  k' ≠ k → Js.lookup (Js.insert_index o i k v) k' = Js.lookup o k'.
Proof.
  intros Hne. induction o as [|[k0 w] o IH]; simpl.
  - by rewrite (proj2 (String.eqb_neq k k')).
  - destruct (Js.array_index k0) as [i'|]; [destruct (i' <? i)%N|]; simpl;
      rewrite ?IH, ?(proj2 (String.eqb_neq k k')); done.
Qed.

Lemma lookup_insert_index_eq o i k v :
  k ∉ Js.keys o → Js.lookup (Js.insert_index o i k v) k = Some v.
Proof.
  unfold Js.keys. induction o as [|[k0 w] o IH]; simpl.
  - by rewrite String.eqb_refl.
  - intros [Hne Hout]%not_elem_of_cons.
    destruct (Js.array_index k0) as [i'|]; [destruct (i' <? i)%N|]; simpl;
      rewrite ?String.eqb_refl; try done.
    rewrite (proj2 (String.eqb_neq k0 k)) by done. by apply IH.
Qed.

Lemma keys_insert_index o i k v :
  Js.keys o `sublist_of` Js.keys (Js.insert_index o i k v) ∧
  k ∈ Js.keys (Js.insert_index o i k v).
Proof.
  unfold Js.keys. induction o as [|[k0 w] o [IH1 IH2]]; simpl.
  - split; [apply sublist_nil_l|left].
  - destruct (Js.array_index k0) as [i'|]; [destruct (i' <? i)%N|]; simpl.
    + split; [by apply sublist_skip|by right].
    + split; [by apply sublist_cons|left].
    + split; [by apply sublist_cons|left].
Qed.

Lemma replace_insert_index o i k k1 v v1 :
  k1 ≠ k →
  Js.replace (Js.insert_index o i k v) k1 v1 =
  Js.insert_index (Js.replace o k1 v1) i k v.
Proof.
  intros Hne. induction o as [|[k0 w] o IH]; simpl.
  - by rewrite (proj2 (String.eqb_neq k k1)).
  - destruct (String.eqb k0 k1) eqn:E; simpl;
      destruct (Js.array_index k0) as [i'|]; try destruct (i' <? i)%N; simpl;
      rewrite ?E, ?IH, ?(proj2 (String.eqb_neq k k1)); done.
Qed.

Lemma replace_insert_index_same o i k v w :
  k ∉ Js.keys o →
  Js.replace (Js.insert_index o i k v) k w = Js.insert_index o i k w.
Proof.
  unfold Js.keys. induction o as [|[k0 u] o IH]; simpl.
  - by rewrite String.eqb_refl.
  - intros [Hne Hout]%not_elem_of_cons.
    destruct (Js.array_index k0) as [i'|]; [destruct (i' <? i)%N|]; simpl;
      rewrite ?String.eqb_refl; try done.
    rewrite (proj2 (String.eqb_neq k0 k)) by done. by rewrite IH.
Qed.

Lemma replace_app_new o k v w :
  k ∉ Js.keys o → Js.replace (o ++ [(k, v)]) k w = o ++ [(k, w)].
Proof.
  unfold Js.keys. induction o as [|[k0 u] o IH]; simpl.
  - by rewrite String.eqb_refl.
  - intros [Hne Hout]%not_elem_of_cons.
    rewrite (proj2 (String.eqb_neq k0 k)) by done. by rewrite IH.
Qed.

Lemma replace_app_old o k k1 v v1 :
  k1 ∈ Js.keys o →
  Js.replace (o ++ [(k, v)]) k1 v1 = Js.replace o k1 v1 ++ [(k, v)].
Proof.
  unfold Js.keys. induction o as [|[k0 u] o IH]; simpl.
  - by intros ?%elem_of_nil.
  - intros Hin. destruct (String.eqb k0 k1) eqn:E; [done|].
    rewrite IH; [done|]. apply elem_of_cons in Hin as [->|Hin]; [|done].
    by rewrite String.eqb_refl in E.
Qed.

Lemma lookup_app_new o k k' v :
  Js.lookup (o ++ [(k, v)]) k' =
  match Js.lookup o k' with
  | Some w => Some w
  | None => if String.eqb k k' then Some v else None
  end.
Proof.
  induction o as [|[k0 u] o IH]; simpl; [done|].
  by destruct (String.eqb k0 k').
Qed.

(** Reading after [{ ...o, [k]: v }]. *)
Lemma lookup_put_eq o k v : Js.lookup (Js.put o k v) k = Some v.
Proof.
  unfold Js.put. destruct (Js.includes (Js.keys o) k) eqn:E.
  - apply includes_true in E. by apply lookup_replace_eq.
  - apply includes_false in E. destruct (Js.array_index k).
    + by apply lookup_insert_index_eq.
    + rewrite lookup_app_new, (proj2 (lookup_None_keys o k) E).
      by rewrite String.eqb_refl.
Qed.

Lemma lookup_put_ne o k k' v :
  k' ≠ k → Js.lookup (Js.put o k v) k' = Js.lookup o k'.
Proof.
  intros Hne. unfold Js.put. destruct (Js.includes (Js.keys o) k).
  - by apply lookup_replace_ne.
  - destruct (Js.array_index k).
    + by apply lookup_insert_index_ne.
    + rewrite lookup_app_new, (proj2 (String.eqb_neq k k')) by done.
      by destruct (Js.lookup o k').
Qed.

Lemma keys_put_elem o k v :
  k ∈ Js.keys o → Js.keys (Js.put o k v) = Js.keys o.
Proof.
  intros Hin. unfold Js.put.
  rewrite (proj2 (includes_true _ _) Hin). apply keys_replace.
Qed.

Lemma keys_put_sublist o k v :
  Js.keys o `sublist_of` Js.keys (Js.put o k v).
Proof.
  unfold Js.put. destruct (Js.includes (Js.keys o) k).
  - by rewrite keys_replace.
  - destruct (Js.array_index k).
    + apply keys_insert_index.
    + unfold Js.keys. rewrite map_app. by apply sublist_inserts_r.
Qed.

Lemma keys_put_new o k v : k ∈ Js.keys (Js.put o k v).
Proof.
  assert (H : is_Some (Js.lookup (Js.put o k v) k))
    by (rewrite lookup_put_eq; by eexists).
  destruct (decide (k ∈ Js.keys (Js.put o k v))) as [|Hout]; [done|].
  apply lookup_None_keys in Hout. rewrite Hout in H. by destruct H.
Qed.

Lemma put_put_same o k v w : Js.put (Js.put o k v) k w = Js.put o k w.
Proof.
  unfold Js.put at 1.
  rewrite (proj2 (includes_true _ _) (keys_put_new o k v)).
  unfold Js.put. destruct (Js.includes (Js.keys o) k) eqn:E.
  - apply replace_replace_same.
  - apply includes_false in E. destruct (Js.array_index k).
    + by apply replace_insert_index_same.
    + by apply replace_app_new.
Qed.

Lemma put_put_comm o k1 v1 k2 v2 :
  k1 ≠ k2 → k1 ∈ Js.keys o →
  Js.put (Js.put o k1 v1) k2 v2 = Js.put (Js.put o k2 v2) k1 v1.
Proof.
  intros Hne Hin.
  assert (Hin' : k1 ∈ Js.keys (Js.put o k2 v2)).
  { eapply elem_of_sublist; [done|apply keys_put_sublist]. }
  assert (H1 : ∀ o' : Js.obj A, k1 ∈ Js.keys o' →
                 Js.put o' k1 v1 = Js.replace o' k1 v1).
  { intros o' Ho'. unfold Js.put. by rewrite (proj2 (includes_true _ _) Ho'). }
  rewrite (H1 o Hin), (H1 _ Hin'). unfold Js.put. rewrite keys_replace.
  destruct (Js.includes (Js.keys o) k2).
  - by apply replace_replace_comm.
  - destruct (Js.array_index k2).
    + symmetry. by apply replace_insert_index.
    + symmetry. by apply replace_app_old.
Qed.

End Objects.

Lemma get_put_eq (o : Js.object) k v : Js.get (Js.put o k v) k = v.
Proof. unfold Js.get. by rewrite lookup_put_eq. Qed.

Lemma get_put_ne (o : Js.object) k k' v :
  k' ≠ k → Js.get (Js.put o k v) k' = Js.get o k'.
Proof. intros H. unfold Js.get. by rewrite lookup_put_ne. Qed.

(** Reading after [o[k] = e]. *)
Lemma lookup_assign (o : Js.obj string) k k' e :
  Js.assign o k e !! k' =
  if decide (k' = k ∧ k ≠ "__proto__") then Some e else o !! k'.
Proof.
  unfold lookup, Js.obj_lookup, Js.assign.
  destruct (String.eqb k "__proto__") eqn:E.
  - apply String.eqb_eq in E. rewrite decide_False; [done|tauto].
  - apply String.eqb_neq in E. destruct (decide (k' = k)) as [->|Hne].
    + rewrite decide_True by done. apply lookup_put_eq.
    + rewrite decide_False by tauto. by apply lookup_put_ne.
Qed.

Lemma assign_assign (o : Js.obj string) k e e' :
  Js.assign (Js.assign o k e) k e' = Js.assign o k e'.
Proof.
  unfold Js.assign. destruct (String.eqb k "__proto__"); [done|].
  apply put_put_same.
Qed.

(* ===================================================================== *)
(** ** The validator                                                      *)
(* ===================================================================== *)

Lemma validated_keys_prefix keys (fns : Fns) :
  ∃ rest, validated_keys keys fns ++ rest = keys.
Proof.
  induction keys as [|k keys [rest IH]]; simpl; [by exists []|].
  destruct (throws_on fns k); [by exists keys|].
  exists rest. simpl. by rewrite IH.
Qed.

Lemma validated_keys_elem keys (fns : Fns) k :
  k ∈ validated_keys keys fns → k ∈ keys.
Proof.
  induction keys as [|k' keys IH]; simpl; [done|].
  destruct (throws_on fns k').
  - intros ->%list_elem_of_singleton. left.
  - intros [->|Hin]%elem_of_cons; [left|right; by apply IH].
Qed.

Lemma validated_keys_length keys (fns : Fns) :
  (length (validated_keys keys fns) ≤ length keys)%nat.
Proof.
  induction keys as [|k keys IH]; simpl; [done|].
  destruct (throws_on fns k); simpl; lia.
Qed.

Lemma validated_keys_all keys (fns : Fns) :
  validate_throws keys fns = false → validated_keys keys fns = keys.
Proof.
  unfold validate_throws. induction keys as [|k keys IH]; simpl; [done|].
  intros [Hk Hrest]%orb_false_elim. rewrite Hk. by rewrite IH.
Qed.

Lemma recorded_keys_elem keys (fns : Fns) k :
  k ∈ recorded_keys keys fns ↔ k ∈ validated_keys keys fns ∧ k ≠ "__proto__".
Proof. unfold recorded_keys. rewrite list_elem_of_filter. tauto. Qed.

Section Validator.
Context (values : Values) (fns : Fns).

Lemma first_error_empty_iff val (safeFns : list Fn) :
  first_error val values safeFns = "" ↔
  Forall (λ fn : Fn, fn val values = "") safeFns.
Proof.
  induction safeFns as [|fn rest IH]; simpl.
  - split; [constructor|done].
  - destruct (String.eqb (fn val values) "") eqn:E; simpl.
    + apply String.eqb_eq in E. rewrite IH, Forall_cons. tauto.
    + apply String.eqb_neq in E. rewrite Forall_cons. tauto.
Qed.

Lemma calls_made_all val (safeFns : list Fn) :
  Forall (λ fn : Fn, fn val values = "") safeFns →
  calls_made val values safeFns = length safeFns.
Proof.
  induction 1 as [|fn rest Hfn _ IH]; simpl; [done|].
  by rewrite Hfn, IH.
Qed.

Lemma first_error_split val (passed rest : list Fn) (fn : Fn) :
  Forall (λ f : Fn, f val values = "") passed →
  fn val values ≠ "" →
  first_error val values (passed ++ fn :: rest) = fn val values ∧
  calls_made val values (passed ++ fn :: rest) = S (length passed).
Proof.
  intros Hp Hfn. induction Hp as [|f passed Hf _ [IH1 IH2]]; simpl.
  - by rewrite eqb_empty_false.
  - by rewrite Hf, IH1, IH2.
Qed.

(** What the inner loop iterates over. *)
Lemma read_rules_throws k :
  throws_on fns k = true → ∃ rest, read_rules fns k = None :: rest.
Proof.
  unfold throws_on, read_rules. destruct (fns !! k); [done|].
  destruct (Js.object_prototype k) as [[[|n]|]|]; try done.
  intros _. by eexists.
Qed.

Lemma read_rules_passes k :
  throws_on fns k = false →
  read_rules fns k = Some <$> default [] (fns !! k).
Proof.
  unfold throws_on, read_rules. destruct (fns !! k); [done|].
  by destruct (Js.object_prototype k) as [[[|n]|]|].
Qed.

Lemma throws_on_no_rules k : throws_on fns k = true → fns !! k = None.
Proof. unfold throws_on. by destruct (fns !! k). Qed.

(** The inner loop over a list of functions, in closed form. *)
Lemma fns_loop_spec k val (safeFns : list Fn) j st :
  let e := first_error val values safeFns in
  let failed := negb (String.eqb e "") in
  fns_loop k val values (Some <$> safeFns) j st =
  {| l_invalid := if failed then true else l_invalid st;
     l_invalidCount := if failed then (l_invalidCount st + 1)%Z
                       else l_invalidCount st;
     l_errors := if failed then Js.assign (l_errors st) k e else l_errors st;
     l_called := l_called st ++
       ((λ i, (k, i)) <$> seq j (calls_made val values safeFns));
     l_thrown := l_thrown st |}.
Proof.
  revert j st. induction safeFns as [|fn rest IH]; intros j st; simpl.
  - rewrite app_nil_r. by destruct st.
  - destruct (String.eqb (fn val values) "") eqn:E; simpl.
    + rewrite IH. simpl. by rewrite <- app_assoc.
    + by rewrite E.
Qed.

(** One turn of the outer loop. *)
Lemma keys_loop_cons k rest st :
  l_thrown st = false →
  keys_loop (k :: rest) values fns st =
  if throws_on fns k then key_step values fns k st
  else keys_loop rest values fns (key_step values fns k st).
Proof.
  intros Hst. cbn [keys_loop]. destruct (throws_on fns k) eqn:Hk.
  - destruct (read_rules_throws k Hk) as [more ->]. cbn [fns_loop l_thrown].
    unfold key_step, key_error, key_calls.
    rewrite Hk, (throws_on_no_rules k Hk). simpl. by rewrite app_nil_r.
  - rewrite (read_rules_passes k Hk), fns_loop_spec. cbn [l_thrown].
    rewrite Hst.
    assert (Hstep :
      {| l_invalid :=
           if negb (String.eqb (first_error (Js.get values k) values
                                  (default [] (fns !! k))) "")
           then true else l_invalid st;
         l_invalidCount :=
           if negb (String.eqb (first_error (Js.get values k) values
                                  (default [] (fns !! k))) "")
           then (l_invalidCount st + 1)%Z else l_invalidCount st;
         l_errors :=
           if negb (String.eqb (first_error (Js.get values k) values
                                  (default [] (fns !! k))) "")
           then Js.assign (Js.assign (l_errors st) k "") k
                  (first_error (Js.get values k) values
                     (default [] (fns !! k)))
           else Js.assign (l_errors st) k "";
         l_called := l_called st ++
           ((λ i, (k, i)) <$>
            seq 0 (calls_made (Js.get values k) values
                     (default [] (fns !! k))));
         l_thrown := false |} = key_step values fns k st).
    { unfold key_step, key_error, key_calls. rewrite Hk.
      destruct (String.eqb (first_error _ _ _) "") eqn:E; simpl.
      - apply String.eqb_eq in E. by rewrite E.
      - by rewrite assign_assign. }
    cbn [l_invalid l_invalidCount l_errors l_called l_thrown].
    by rewrite Hstep.
Qed.

(** The outer loop is the sequence of its turns over the keys it
    reaches. *)
Lemma keys_loop_fold keys st :
  l_thrown st = false →
  keys_loop keys values fns st =
  foldl (λ s k, key_step values fns k s) st (validated_keys keys fns).
Proof.
  revert st. induction keys as [|k rest IH]; intros st Hst; [done|].
  rewrite keys_loop_cons by done. cbn [validated_keys].
  destruct (throws_on fns k) eqn:Hk; [done|].
  cbn [foldl]. apply IH. unfold key_step. simpl. exact Hk.
Qed.

Lemma keys_loop_thrown keys st :
  l_thrown st = false →
  l_thrown (keys_loop keys values fns st) = validate_throws keys fns.
Proof.
  unfold validate_throws.
  revert st. induction keys as [|k rest IH]; intros st Hst; [done|].
  rewrite keys_loop_cons by done. cbn [existsb].
  destruct (throws_on fns k) eqn:Hk.
  - unfold key_step. simpl. exact Hk.
  - simpl. apply IH. unfold key_step. simpl. exact Hk.
Qed.

Lemma steps_called ks st :
  l_called (foldl (λ s k, key_step values fns k s) st ks) =
  l_called st ++ flat_map (key_calls values fns) ks.
Proof.
  revert st. induction ks as [|k rest IH]; intros st; simpl.
  - by rewrite app_nil_r.
  - rewrite IH. simpl. by rewrite <- app_assoc.
Qed.

Lemma steps_errors ks st k :
  l_errors (foldl (λ s k, key_step values fns k s) st ks) !! k =
  if decide (k ∈ ks ∧ k ≠ "__proto__") then Some (key_error values fns k)
  else l_errors st !! k.
Proof.
  revert st. induction ks as [|k' rest IH]; intros st; cbn [foldl].
  - destruct (decide (k ∈ [] ∧ k ≠ "__proto__")) as [[H _]|_]; [|done].
    by apply elem_of_nil in H.
  - rewrite IH. cbn [key_step l_errors]. rewrite lookup_assign.
    destruct (decide (k ∈ rest ∧ k ≠ "__proto__")) as [[Hin Hp]|Hout].
    + rewrite decide_True; [done|]. split; [by right|done].
    + destruct (decide (k = k' ∧ k' ≠ "__proto__")) as [[-> Hp]|Hne].
      * rewrite decide_True; [done|]. split; [left|done].
      * rewrite decide_False; [done|]. intros [Hin Hp].
        apply elem_of_cons in Hin as [->|Hin]; tauto.
Qed.

Lemma steps_invalidCount ks st :
  l_invalidCount (foldl (λ s k, key_step values fns k s) st ks) =
  (l_invalidCount st +
   Z.of_nat (length (filter (λ k, key_error values fns k ≠ "") ks)))%Z.
Proof.
  revert st. induction ks as [|k rest IH]; intros st; simpl; [lia|].
  rewrite IH. simpl. rewrite filter_cons.
  destruct (String.eqb (key_error values fns k) "") eqn:E; simpl.
  - apply String.eqb_eq in E. rewrite decide_False; [lia|congruence].
  - apply String.eqb_neq in E. rewrite decide_True; [|done]. simpl. lia.
Qed.

Lemma steps_invalid ks st :
  l_invalid (foldl (λ s k, key_step values fns k s) st ks) = true ↔
  l_invalid st = true ∨ ∃ k, k ∈ ks ∧ key_error values fns k ≠ "".
Proof.
  revert st. induction ks as [|k rest IH]; intros st; simpl.
  - split; [by left|]. intros [H|(k & Hk & _)]; [done|].
    by apply elem_of_nil in Hk.
  - rewrite IH. simpl.
    destruct (String.eqb (key_error values fns k) "") eqn:E; simpl.
    + apply String.eqb_eq in E. split.
      * intros [H|(k' & Hk' & He)]; [by left|right].
        exists k'. split; [by right|done].
      * intros [H|(k' & Hk' & He)]; [by left|right].
        apply elem_of_cons in Hk' as [->|Hk']; [done|by exists k'].
    + apply String.eqb_neq in E. split; [|by left].
      intros _. right. exists k. split; [by left|done].
Qed.

End Validator.

(** What [validate] returns, field by field. *)
Lemma validate_errors keys values fns k :
  errors (validate keys values fns) !! k =
  if decide (k ∈ recorded_keys keys fns) then Some (key_error values fns k)
  else None.
Proof.
  unfold validate, validate_locals. cbn [errors].
  rewrite keys_loop_fold by done. rewrite steps_errors.
  destruct (decide (k ∈ recorded_keys keys fns)) as [H|H];
    rewrite recorded_keys_elem in H.
  - by rewrite decide_True.
  - by rewrite decide_False.
Qed.

Lemma validate_errors_elem keys values fns k :
  k ∈ recorded_keys keys fns →
  errors (validate keys values fns) !! k = Some (key_error values fns k).
Proof. intros H. by rewrite validate_errors, decide_True. Qed.

Lemma validate_invalidCount keys values fns :
  invalidCount (validate keys values fns) =
  Z.of_nat (length (filter (λ k, key_error values fns k ≠ "")
                           (validated_keys keys fns))).
Proof.
  unfold validate, validate_locals. cbn [invalidCount].
  rewrite keys_loop_fold by done. by rewrite steps_invalidCount.
Qed.

Lemma validate_invalid keys values fns :
  invalid (validate keys values fns) = true ↔
  ∃ k, k ∈ validated_keys keys fns ∧ key_error values fns k ≠ "".
Proof.
  unfold validate, validate_locals. cbn [invalid].
  rewrite keys_loop_fold by done. rewrite steps_invalid.
  simpl. intuition congruence.
Qed.

Lemma validate_calls_flat keys values fns :
  validate_calls keys values fns =
  flat_map (key_calls values fns) (validated_keys keys fns).
Proof.
  unfold validate_calls, validate_locals.
  rewrite keys_loop_fold by done. by rewrite steps_called.
Qed.

Lemma validate_counts keys values fns :
  (validCount (validate keys values fns) +
   invalidCount (validate keys values fns))%Z = Z.of_nat (length keys).
Proof. unfold validate. simpl. lia. Qed.

Lemma validate_invalidCount_bounds keys values fns :
  (0 ≤ invalidCount (validate keys values fns) ≤ Z.of_nat (length keys))%Z.
Proof.
  rewrite validate_invalidCount.
  pose proof (length_filter (λ k, key_error values fns k ≠ "")
                (validated_keys keys fns)).
  pose proof (validated_keys_length keys fns). lia.
Qed.

Lemma validate_progress keys values fns :
  progress (validate keys values fns) =
  Js.toFixed2_number
    (Js.mul (Js.div (Js.of_Z (validCount (validate keys values fns)))
                    (Js.of_Z (Z.of_nat (length keys))))
            (Js.of_Z 100)).
Proof. reflexivity. Qed.

(** The call throws exactly on the keys and functions of
    [validate_throws], and returns [validate] otherwise. *)
Lemma validate_call_spec keys values fns :
  validate_call keys values fns =
  if validate_throws keys fns then Js.Throw "fn is not a function"
  else Js.Return (validate keys values fns).
Proof.
  unfold validate_call, validate_locals. by rewrite keys_loop_thrown.
Qed.

(* ===================================================================== *)
(** ** The state container                                                *)
(* ===================================================================== *)

Section Engine.
Context (F : Setup).

(** A property that the fresh form has and that every call keeps holds
    after any sequence of calls. *)
Lemma run_invariant (P : State → Prop) (cs : list Call) :
  P (useForm F) → (∀ st c, P st → P (call F st c)) → P (run F (useForm F) cs).
Proof.
  intros H0 Hstep. unfold run. generalize (useForm F) H0.
  induction cs as [|c cs IH]; intros st Hst; simpl; [done|].
  apply IH. by apply Hstep.
Qed.

Lemma change_cases st e :
  (∃ msg, change F st e = console_error st msg) ∨
  change F st e = set F st (target_name e) (Js.VString (target_value e)).
Proof.
  unfold change. destruct (negb (isDebugAvailable (href F))); [by right|].
  destruct (String.eqb (target_name e) ""); [left; eauto|].
  destruct (negb (Js.includes _ _)); [left; eauto|].
  destruct (negb (String.eqb _ _)); [left; eauto|by right].
Qed.

(** The stored result is always the validation of the stored values. *)
Lemma result_consistent cs :
  let st := run F (useForm F) cs in
  result st = validate (keys F) (values st) (fns F).
Proof.
  apply (run_invariant
           (λ st, result st = validate (keys F) (values st) (fns F))); [done|].
  intros st c Hst. destruct c as [k v|e| | | |p]; simpl; try done.
  destruct (change_cases st e) as [[msg ->]| ->]; done.
Qed.

(** Subscribers stay where they are, with their predicate. *)
Lemma call_keeps_subscription st c i s :
  changed st !! i = Some s →
  ∃ s', changed (call F st c) !! i = Some s' ∧
        Rx.sub_filter s' = Rx.sub_filter s.
Proof.
  intros Hs.
  assert (Hset : ∀ k v, ∃ s', changed (set F st k v) !! i = Some s' ∧
                               Rx.sub_filter s' = Rx.sub_filter s).
  { intros k v. exists (Rx.deliver {| key := k; value := v |} s). split.
    - simpl. unfold Rx.next. by rewrite list_lookup_fmap, Hs.
    - unfold Rx.deliver. by destruct (Rx.sub_filter s _). }
  destruct c as [k v|e| | | |p].
  - apply Hset.
  - simpl. destruct (change_cases st e) as [[msg ->]| ->]; [|apply Hset].
    by exists s.
  - by exists s.
  - by exists s.
  - by exists s.
  - exists s. split; [|done]. simpl. unfold Rx.subscribe.
    by apply lookup_app_l_Some.
Qed.

Lemma run_keeps_subscription st cs i s :
  changed st !! i = Some s →
  ∃ s', changed (run F st cs) !! i = Some s' ∧
        Rx.sub_filter s' = Rx.sub_filter s.
Proof.
  revert st s. induction cs as [|c cs IH]; intros st s Hs; [by exists s|].
  destruct (call_keeps_subscription st c i s Hs) as (s1 & Hs1 & Hf1).
  destruct (IH _ _ Hs1) as (s2 & Hs2 & Hf2).
  exists s2. split; [done|congruence].
Qed.

Lemma set_received st k v i s :
  changed st !! i = Some s →
  Rx.received i (changed (set F st k v)) =
  Some (Rx.sub_received (Rx.deliver {| key := k; value := v |} s)).
Proof.
  intros Hs. unfold Rx.received. simpl. unfold Rx.next.
  by rewrite list_lookup_fmap, Hs.
Qed.

End Engine.

Lemma filter_ext_elem {A} (P Q : A → Prop)
    `{!∀ x, Decision (P x)} `{!∀ x, Decision (Q x)} (l : list A) :
  (∀ x, x ∈ l → P x ↔ Q x) → filter P l = filter Q l.
Proof.
  induction l as [|x l IH]; intros Hext; [done|].
  rewrite !filter_cons.
  assert (Hx : P x ↔ Q x) by (apply Hext; by left).
  assert (Hl : filter P l = filter Q l).
  { apply IH. intros y Hy. apply Hext. by right. }
  destruct (decide (P x)), (decide (Q x)); rewrite ?Hl; tauto.
Qed.


(* ===================================================================== *)
(** ** Properties of the validator                                        *)
(* ===================================================================== *)

(** Away from the name [__proto__] and from a thrown error, [invalidCount]
    is the number of keys whose recorded message is not the empty string,
    and [invalid] is true exactly when there is such a key. *)
Lemma validate_counts_failed_keys (keys : list string) (values : Values)
    (fns : Fns) :
  "__proto__" ∉ keys →
  validate_throws keys fns = false →
  let r := validate keys values fns in
  invalidCount r =
    Z.of_nat (length (filter (λ k, errors r !! k ≠ Some "") keys)) ∧
  (invalid r = true ↔ ∃ k, k ∈ keys ∧ errors r !! k ≠ Some "") ∧
  valid r = negb (invalid r).
Proof.
  intros Hproto Hthrow r. subst r.
  pose proof (validated_keys_all keys fns Hthrow) as Hall.
  assert (Hk : ∀ k, k ∈ keys →
            errors (validate keys values fns) !! k ≠ Some "" ↔
            key_error values fns k ≠ "").
  { intros k Hin. rewrite validate_errors_elem.
    - split; intros H; congruence.
    - apply recorded_keys_elem. rewrite Hall. split; [done|congruence]. }
  split; [|split].
  - rewrite validate_invalidCount, Hall. do 2 f_equal.
    symmetry. by apply filter_ext_elem.
  - rewrite validate_invalid, Hall. split; intros (k & Hin & H); exists k.
    + split; [done|]. by apply Hk.
    + split; [done|]. by apply Hk.
  - reflexivity.
Qed.

(** C10. The code at a key list that holds the name [__proto__]: the call
    returns, and [errors] has no entry for that key. Without any
    validation function [invalidCount] is 0 although one key of the two
    has no empty string recorded; with a function that objects to the
    field, [invalid] is true and [invalidCount] is 1 although no message
    is recorded for any key. *)
Theorem validate_proto_key_not_recorded :
  let keys := ["__proto__"; "a"] in
  let r := validate keys proto_values ∅ in
  let r' := validate keys proto_values {[ "__proto__" := [required] ]} in
  validate_call keys proto_values ∅ = Js.Return r ∧
  errors r = [("a", "")] ∧
  invalidCount r = 0%Z ∧
  length (filter (λ k, errors r !! k ≠ Some "") keys) = 1%nat ∧
  validate_call keys proto_values {[ "__proto__" := [required] ]} =
    Js.Return r' ∧
  errors r' = [("a", "")] ∧
  invalid r' = true ∧
  invalidCount r' = 1%Z.
Proof. by vm_compute. Qed.

(** A field whose two functions both object counts once. *)
Example two_objections_count_once :
  let strict : Fn := λ _ _, "no" in
  invalidCount
    (validate ["a"; "b"] [("a", Js.VNull); ("b", Js.VNull)]
              {[ "a" := [strict; strict] ]}) = 1%Z.
Proof. reflexivity. Qed.

Example validate_counts_failed_keys_scenario :
  let r := validate (keys scenario) (initValues scenario) (fns scenario) in
  invalidCount r = 2%Z ∧ invalid r = true ∧ valid r = false ∧
  errors r !! "email" = Some "must contain @" ∧
  errors r !! "age" = Some "must be ≥ 18".
Proof. vm_compute. repeat split. Qed.

(* ===================================================================== *)
(** ** Properties of the state container                                  *)
(* ===================================================================== *)

Lemma key_calls_elem values fns k k' j :
  (k', j) ∈ key_calls values fns k →
  k' = k ∧
  (j < calls_made (Js.get values k) values (default [] (fns !! k)))%nat.
Proof.
  unfold key_calls. intros (i & Heq & Hi)%list_elem_of_fmap.
  apply elem_of_seq in Hi. inversion Heq; subst. split; [done|lia].
Qed.

Lemma validate_calls_elem keys values fns k j :
  (k, j) ∈ validate_calls keys values fns →
  k ∈ validated_keys keys fns ∧
  (j < calls_made (Js.get values k) values (default [] (fns !! k)))%nat.
Proof.
  rewrite validate_calls_flat, list_elem_of_In, in_flat_map.
  intros (k' & Hk' & Hin). apply list_elem_of_In, key_calls_elem in Hin.
  destruct Hin as [-> ?]. split; [by apply list_elem_of_In|done].
Qed.

Lemma validate_calls_split keys values fns k :
  k ∈ validated_keys keys fns →
  ∃ before after,
    validate_calls keys values fns = before ++ key_calls values fns k ++ after.
Proof.
  intros (l1 & l2 & Heq)%list_elem_of_split.
  rewrite validate_calls_flat, Heq, flat_map_app. simpl. eauto.
Qed.

Section SetErrors.
Context (F : Setup).

(** On a form that was built, [set(key, value)] on a key of the form other
    than [__proto__] leaves [errors[key]] empty if and only if no function
    of the key's list gives a non-empty answer on the new values. The
    functions are called in list order from the first one, and the first
    non-empty answer ends the calls for that field: its answer is the
    recorded error and no later function of the list is called. *)
Lemma set_error_empty_iff_rules_pass (st : State) (k : string)
    (v : Js.value) :
  k ∈ keys F →
  k ≠ "__proto__" →
  validate_throws (keys F) (fns F) = false →
  let st' := set F st k v in
  let safeFns := default [] (fns F !! k) in
  let calls := validate_calls (keys F) (values st') (fns F) in
  result st' = validate (keys F) (values st') (fns F) ∧
  (errors (result st') !! k = Some "" ↔
   Forall (λ fn : Fn, fn v (values st') = "") safeFns) ∧
  (Forall (λ fn : Fn, fn v (values st') = "") safeFns →
   ∃ before after,
     calls = before ++ ((λ j, (k, j)) <$> seq 0 (length safeFns)) ++ after) ∧
  (∀ (passed : list Fn) (fn : Fn) (later : list Fn),
     safeFns = passed ++ fn :: later →
     Forall (λ f : Fn, f v (values st') = "") passed →
     fn v (values st') ≠ "" →
     errors (result st') !! k = Some (fn v (values st')) ∧
     (∃ before after,
        calls =
        before ++ ((λ j, (k, j)) <$> seq 0 (S (length passed))) ++ after) ∧
     ∀ j, (length passed < j)%nat → (k, j) ∉ calls).
Proof.
  intros Hk Hproto Hthrow st' safeFns calls.
  pose proof (validated_keys_all (keys F) (fns F) Hthrow) as Hall.
  assert (Hget : Js.get (values st') k = v) by apply get_put_eq.
  assert (Herr : errors (result st') !! k =
                 Some (first_error v (values st') safeFns)).
  { change (result st') with (validate (keys F) (values st') (fns F)).
    rewrite validate_errors_elem.
    - unfold key_error. by rewrite Hget.
    - apply recorded_keys_elem. by rewrite Hall. }
  assert (Hcalls : ∃ before after, calls =
            before ++ ((λ j, (k, j)) <$>
                       seq 0 (calls_made v (values st') safeFns)) ++ after).
  { destruct (validate_calls_split (keys F) (values st') (fns F) k)
      as (b & a & Hba); [by rewrite Hall|].
    exists b, a. subst calls. rewrite Hba.
    unfold key_calls. by rewrite Hget. }
  split; [done|]. split; [|split].
  - rewrite Herr, <- first_error_empty_iff. split; congruence.
  - intros Hpass. by rewrite <- (calls_made_all (values st') v safeFns Hpass).
  - intros passed fn later Hsplit Hpassed Hfn.
    destruct (first_error_split (values st') v passed later fn Hpassed Hfn)
      as [He Hc].
    rewrite <- Hsplit in He, Hc. split; [|split].
    + by rewrite Herr, He.
    + by rewrite <- Hc.
    + intros j Hj Hin. apply validate_calls_elem in Hin as [_ Hin].
      rewrite Hget in Hin. fold safeFns in Hin. lia.
Qed.

End SetErrors.

(** C1. The code at a form that has a field named [__proto__] and no
    validation function: the form is built, [set] on the field stores the
    new value, no function of the field gives a non-empty answer, and yet
    [errors] has no entry for the field, so that [errors[key]] reads
    [Object.prototype] and not the empty string. *)
Theorem set_proto_field_error_not_recorded :
  let st' := set proto_form (useForm proto_form) "__proto__" (Js.VString "x") in
  useForm_call proto_form = Js.Return (useForm proto_form) ∧
  keys proto_form = ["__proto__"; "a"] ∧
  Js.lookup (values st') "__proto__" = Some (Js.VString "x") ∧
  Forall (λ fn : Fn, fn (Js.VString "x") (values st') = "")
         (default [] (fns proto_form !! "__proto__")) ∧
  errors (result st') = [("a", "")] ∧
  errors (result st') !! "__proto__" = None.
Proof.
  intros st'. split; [by vm_compute|]. split; [by vm_compute|].
  split; [by vm_compute|]. split; [constructor|]. by vm_compute.
Qed.

Section Container.
Context (F : Setup).

(** C3. After construction and after every call on the form, [validCount]
    and [invalidCount] of the current result add up to the number of
    fields the form was created with. *)
Theorem counts_add_up_to_field_count (cs : list Call) :
  let r := result (run F (useForm F) cs) in
  (validCount r + invalidCount r)%Z =
  Z.of_nat (length (Js.keys (initValues F))).
Proof.
  simpl. rewrite result_consistent. apply validate_counts.
Qed.

(** C4. Whatever calls came before, [reset()] leaves the values, the
    validation result and the metadata equal to those of the form right
    after construction. *)
Theorem reset_restores_construction (cs : list Call) :
  let st := reset F (run F (useForm F) cs) in
  values st = values (useForm F) ∧
  result st = result (useForm F) ∧
  metadata st = metadata (useForm F).
Proof. done. Qed.


(** C7. Two calls of [confirm()] in a row give the same validation
    result. *)
Theorem confirm_twice_same_result (st : State) :
  result (confirm F (confirm F st)) = result (confirm F st).
Proof. reflexivity. Qed.

(** C9. Right after construction the metadata is untouched and
    unconfirmed, and [reset()] brings that metadata back. *)
Theorem initial_metadata (st : State) :
  let fresh := {| touched := false; untouched := true;
                  confirmed := false; unconfirmed := true |} in
  metadata (useForm F) = fresh ∧ metadata (reset F st) = fresh.
Proof. done. Qed.

End Container.

(* ===================================================================== *)
(** ** Properties of the change notifier and of [change]                  *)
(* ===================================================================== *)

Section Notifier.
Context (F : Setup).

(** C5. A subscription made through [on(key)] with the default predicate
    is handed nothing by a later [set] on another key, and exactly one
    event, carrying the key and the new value, by a later [set] on
    [key]. *)
Theorem on_key_subscription_delivery (st : State) (k : string)
    (cs : list Call) (k' : string) (v : Js.value) :
  let i := length (changed st) in
  let st2 := run F (subscribe st (on k None)) cs in
  ∃ l, Rx.received i (changed st2) = Some l ∧
       Rx.received i (changed (set F st2 k' v)) =
       Some (if decide (k' = k) then l ++ [{| key := k; value := v |}]
             else l).
Proof.
  intros i st2.
  assert (H0 : changed (subscribe st (on k None)) !! i =
               Some {| Rx.sub_filter := on k None; Rx.sub_received := [] |}).
  { simpl. unfold Rx.subscribe. by rewrite list_lookup_middle. }
  destruct (run_keeps_subscription F _ cs _ _ H0) as (s & Hs & Hf).
  fold st2 in Hs. exists (Rx.sub_received s). split.
  - unfold Rx.received. by rewrite Hs.
  - rewrite (set_received F st2 k' v i s Hs). f_equal.
    unfold Rx.deliver. rewrite Hf. simpl.
    destruct (decide (k' = k)) as [->|Hne].
    + by rewrite String.eqb_refl.
    + by rewrite (proj2 (String.eqb_neq k' k)).
Qed.

(** Outside the debug posture [change] is [set], whatever the event. *)
Lemma change_unguarded (st : State) (e : InputChange) :
  isDebugAvailable (href F) = false →
  change F st e = set F st (target_name e) (Js.VString (target_value e)).
Proof. intros H. unfold change. by rewrite H. Qed.

(** C2, as the code has it. When the page address contains [localhost], a
    call of [change] whose event has no name, a name that is not a key of
    the form, or a value whose [typeof] differs from that of the stored
    value, skips the mutation: values, result and metadata stay as they
    were, no subscriber is handed an event, and the only effect is one
    message on the console. *)
Theorem change_guard_in_debug (st : State) (e : InputChange) :
  isDebugAvailable (href F) = true →
  change_rejectable F st e →
  change_skipped F st e ∧
  prevented (change F st e) = prevented st ∧
  ∃ msg, console (change F st e) = console st ++ [msg].
Proof.
  intros Hdebug Hrej.
  assert (H : ∃ msg, change F st e = console_error st msg).
  { unfold change. rewrite Hdebug. simpl.
    destruct (String.eqb (target_name e) "") eqn:Ename; [eauto|].
    destruct (Js.includes (keys F) (target_name e)) eqn:Einc; [|simpl; eauto].
    simpl.
    destruct (String.eqb (Js.typeof _) _) eqn:Etype; [|simpl; eauto].
    exfalso. destruct Hrej as [Hn|[Hk|Ht]].
    - apply String.eqb_neq in Ename. done.
    - by apply Hk, includes_true.
    - by apply String.eqb_eq in Etype. }
  destruct H as [msg Hmsg]. unfold change_skipped. rewrite Hmsg. simpl.
  repeat split. by exists msg.
Qed.

End Notifier.


(* ===================================================================== *)
(** ** Progress                                                           *)
(* ===================================================================== *)

Lemma sf_eqb_eq (x y : spec_float) : sf_eqb x y = true → x = y.
Proof.
  destruct x as [a|a| |a m e], y as [b|b| |b m' e']; simpl; try done.
  - by intros ->%Bool.eqb_prop.
  - by intros ->%Bool.eqb_prop.
  - intros [[->%Bool.eqb_prop ->%Pos.eqb_eq]%andb_prop ->%Z.eqb_eq]%andb_prop.
    done.
Qed.

Lemma progress_exact_sound (validCount total : Z) :
  progress_exact validCount total = true →
  ∃ n, progress_of validCount total = Js.div (Js.of_Z n) (Js.of_Z 100) ∧
       nearest_hundredths validCount total n.
Proof.
  unfold progress_exact, nearest_hundredths.
  intros [H|H]%orb_prop; apply andb_prop in H as [Heq Hle];
    apply sf_eqb_eq in Heq; apply Z.leb_le in Hle; eauto.
Qed.

Lemma progress_exact_upto_sound (N total c : Z) :
  progress_exact_upto N = true →
  (1 ≤ total < 1 + N)%Z → (0 ≤ c ≤ total)%Z →
  progress_exact c total = true.
Proof.
  unfold progress_exact_upto. rewrite forallb_forall. intros Hall Ht Hc.
  assert (Hin : In total (seqZ 1 N)).
  { apply list_elem_of_In, elem_of_seqZ. lia. }
  apply Hall in Hin. rewrite forallb_forall in Hin.
  apply Hin. apply list_elem_of_In, elem_of_seqZ. lia.
Qed.

Lemma progress_exact_upto_100 : progress_exact_upto 100 = true.
Proof. vm_compute. reflexivity. Qed.

(** For a form of at most a hundred fields, [progress] is the number read
    from [n / 100] where [n / 100] is within half a hundredth of the exact
    percentage of valid fields. *)
Lemma progress_nearest_hundredths (keys : list string) (values : Values)
    (fns : Fns) :
  (0 < length keys ≤ 100)%nat →
  let r := validate keys values fns in
  ∃ n, progress r = Js.div (Js.of_Z n) (Js.of_Z 100) ∧
       nearest_hundredths (validCount r) (Z.of_nat (length keys)) n.
Proof.
  intros Hlen r.
  apply (progress_exact_sound (validCount r) (Z.of_nat (length keys))).
  apply (progress_exact_upto_sound 100 _ _ progress_exact_upto_100); [lia|].
  pose proof (validate_counts keys values fns) as Hsum.
  pose proof (validate_invalidCount_bounds keys values fns) as Hinv.
  subst r. lia.
Qed.

(** Ties are broken by the binary arithmetic: 23 valid fields of 160 are
    14.375 percent, and [progress] is 14.37. *)
Example progress_23_of_160 :
  progress_of 23 160 = Js.div (Js.of_Z 1437) (Js.of_Z 100) ∧
  nearest_hundredths 23 160 1437.
Proof. split; [by vm_compute|unfold nearest_hundredths; lia]. Qed.

(** [hundredths] is the nearest integer, the larger of two. *)
Lemma hundredths_nearest (m : positive) (e : Z) :
  let num := (Zpos m * 2 ^ Z.max e 0)%Z in
  let den := (2 ^ Z.max (- e) 0)%Z in
  ((2 * Js.hundredths m e - 1) * den ≤ 200 * num
   < (2 * Js.hundredths m e + 1) * den)%Z.
Proof.
  destruct e as [|p|p]; cbn zeta.
  - change (Z.max 0 0) with 0%Z. change (Z.max (- 0) 0) with 0%Z.
    unfold Js.hundredths. rewrite !Z.pow_0_r. lia.
  - rewrite (Z.max_l (Z.pos p) 0) by lia.
    rewrite (Z.max_r (- Z.pos p) 0) by lia.
    unfold Js.hundredths. rewrite Z.pow_0_r. lia.
  - rewrite (Z.max_r (Z.neg p) 0) by lia.
    rewrite (Z.max_l (- Z.neg p) 0) by lia.
    change (- Z.neg p)%Z with (Z.pos p). unfold Js.hundredths.
    rewrite Z.pow_0_r.
    assert (Hpow : (0 < 2 ^ Z.pos p)%Z) by (apply Z.pow_pos_nonneg; lia).
    generalize dependent (2 ^ Z.pos p)%Z. intros d Hd.
    pose proof (Z.div_mod (200 * Z.pos m + d) (2 * d)) as Hdm.
    pose proof (Z.mod_pos_bound (200 * Z.pos m + d) (2 * d)) as Hmod.
    specialize (Hdm ltac:(lia)). specialize (Hmod ltac:(lia)).
    nia.
Qed.

Lemma ge_1e21_spec (m : positive) (e : Z) :
  Js.ge_1e21 m e =
  (10 ^ 21 * 2 ^ Z.max (- e) 0 <=? Zpos m * 2 ^ Z.max e 0)%Z.
Proof.
  destruct e as [|p|p]; unfold Js.ge_1e21.
  - change (Z.max 0 0) with 0%Z. change (Z.max (- 0) 0) with 0%Z.
    rewrite !Z.pow_0_r. f_equal; lia.
  - rewrite (Z.max_l (Z.pos p) 0) by lia.
    rewrite (Z.max_r (- Z.pos p) 0) by lia.
    rewrite Z.pow_0_r. f_equal; lia.
  - rewrite (Z.max_r (Z.neg p) 0) by lia.
    rewrite (Z.max_l (- Z.neg p) 0) by lia.
    change (- Z.neg p)%Z with (Z.pos p). rewrite Z.pow_0_r. f_equal; lia.
Qed.

(** [+x.toFixed(2)] rounds to two decimals. *)
Lemma toFixed2_number_rounds (x : spec_float) :
  rounded_to_2_decimals x (Js.toFixed2_number x).
Proof.
  destruct x as [s|s| |s m e]; try done.
  unfold rounded_to_2_decimals, Js.toFixed2_number. cbn zeta.
  rewrite <- ge_1e21_spec. destruct (Js.ge_1e21 m e); [done|].
  exists (Js.hundredths m e). split; [apply hundredths_nearest|done].
Qed.

(** C8, as the code has it. After construction and after every call,
    [progress] is the product [(validCount / total) * 100], computed in
    the arithmetic of numbers, rounded to two decimals as [toFixed(2)]
    does and read back as a number. In the two-field scenario it is 0
    while both fields fail, 50 once the address is valid, and 100 once the
    age is valid too. *)
Theorem progress_is_rounded_percentage (F : Setup) (cs : list Call) :
  (let r := result (run F (useForm F) cs) in
   rounded_to_2_decimals
     (Js.mul (Js.div (Js.of_Z (validCount r))
                     (Js.of_Z (Z.of_nat (length (keys F)))))
             (Js.of_Z 100))
     (progress r)) ∧
  (invalidCount (result (useForm scenario)) = 2%Z ∧
   progress (result (useForm scenario)) = Js.of_Z 0) ∧
  (invalidCount (result scenario_email) = 1%Z ∧
   progress (result scenario_email) = Js.of_Z 50) ∧
  (invalidCount (result scenario_age) = 0%Z ∧
   progress (result scenario_age) = Js.of_Z 100).
Proof.
  split.
  - cbn zeta. rewrite result_consistent, validate_progress.
    apply toFixed2_number_rounds.
  - by vm_compute.
Qed.

(** C8 as stated fails: of the 160 checkboxes 23 are valid, which is
    14.375 percent and 14.38 when rounded to two decimals; the quotient and
    the product of the code are numbers, their product is just below
    14.375, and [progress] is 14.37. *)
Lemma progress_of_boxes_not_exactly_rounded :
  let r := result (useForm boxes) in
  length (keys boxes) = 160%nat ∧
  validCount r = 23%Z ∧
  exactly_rounded_hundredths 23 160 = 1438%Z ∧
  progress r = Js.div (Js.of_Z 1437) (Js.of_Z 100) ∧
  progress r ≠ Js.div (Js.of_Z (exactly_rounded_hundredths 23 160))
                      (Js.of_Z 100).
Proof.
  intros r. split; [by vm_compute|]. split; [by vm_compute|].
  split; [by vm_compute|]. split; [by vm_compute|].
  intros H. vm_compute in H. discriminate H.
Qed.

(* ===================================================================== *)
(** ** The scenarios, and the theorems at concrete forms                  *)
(* ===================================================================== *)

(** The calls of the scenario, one after the other. *)
Example scenario_errors :
  errors (result (useForm scenario)) !! "email" = Some "must contain @" ∧
  errors (result (useForm scenario)) !! "age" = Some "must be ≥ 18" ∧
  invalid (result (useForm scenario)) = true ∧
  errors (result scenario_email) !! "email" = Some "" ∧
  invalidCount (result scenario_email) = 1%Z ∧
  invalid (result scenario_age) = false.
Proof. by vm_compute. Qed.

Example scenario_reset :
  errors (result (reset scenario scenario_age)) !! "email" =
    Some "must contain @" ∧
  progress (result (reset scenario scenario_age)) = Js.of_Z 0.
Proof. by vm_compute. Qed.

Example scenario_on_age :
  let st := subscribe (useForm scenario) (on "age" None) in
  let st1 := set scenario st "email" (Js.VString "a@b.com") in
  let st2 := set scenario st1 "age" (Js.VNumber (Js.of_Z 20)) in
  Rx.received 0 (changed st1) = Some [] ∧
  Rx.received 0 (changed st2) =
    Some [{| key := "age"; value := Js.VNumber (Js.of_Z 20) |}].
Proof. by vm_compute. Qed.

(** [set] on the scenario's address field, through the general lemma. *)
Lemma set_error_empty_iff_rules_pass_scenario :
  "email" ∈ keys scenario ∧
  errors (result scenario_email) !! "email" = Some "".
Proof.
  assert (Hk : "email" ∈ keys scenario) by (apply includes_true; reflexivity).
  split; [exact Hk|].
  destruct (set_error_empty_iff_rules_pass scenario (useForm scenario)
              "email" (Js.VString "a@b.com") Hk) as (_ & Hiff & _);
    [discriminate|reflexivity|].
  apply Hiff. vm_compute. constructor; [reflexivity|constructor].
Qed.

(** In the debug posture the scenario's form turns down a string for its
    numeric field. *)
Lemma change_guard_in_debug_scenario :
  let e := {| target_value := "42"; target_name := "age" |} in
  isDebugAvailable (href scenario) = true ∧
  change_rejectable scenario (useForm scenario) e ∧
  change_skipped scenario (useForm scenario) e.
Proof.
  intros e.
  assert (Hd : isDebugAvailable (href scenario) = true) by reflexivity.
  assert (Hr : change_rejectable scenario (useForm scenario) e).
  { right. right. vm_compute. discriminate. }
  split; [exact Hd|]. split; [exact Hr|].
  exact (proj1 (change_guard_in_debug scenario (useForm scenario) e Hd Hr)).
Defined.

(** C2 as stated fails: served from an address without [localhost], the
    form takes an event that has no name: the values change (a property
    named by the empty string appears), the result is recomputed, the
    metadata becomes touched, a subscriber is handed the event, and the
    console stays silent. *)
Lemma change_outside_debug_not_skipped :
  let F := scenario_deployed in
  let st := subscribe (useForm F) (λ _, true) in
  let e := {| target_value := "x"; target_name := "" |} in
  change_rejectable F st e ∧
  ¬ change_skipped F st e ∧
  values (change F st e) = values st ++ [("", Js.VString "x")] ∧
  touched (metadata (change F st e)) = true ∧
  Rx.received 0 (changed (change F st e)) =
    Some [{| key := ""; value := Js.VString "x" |}] ∧
  console (change F st e) = [].
Proof.
  intros F st e. split; [by left|]. split.
  - intros (Hv & _). vm_compute in Hv. discriminate Hv.
  - by vm_compute.
Qed.

(** [set] does not check its key. On a name that is not a key of the form
    the values gain a property, and [errors] has no entry for it: it reads
    as [undefined], not as the empty string. A name that is an array index
    is enumerated before the fields. *)
Example set_foreign_key :
  let st := set scenario (useForm scenario) "zip" (Js.VString "1000") in
  let st7 := set scenario (useForm scenario) "7" (Js.VString "1000") in
  Js.keys (values st) = ["email"; "age"; "zip"] ∧
  errors (result st) !! "zip" = None ∧
  validCount (result st) = 0%Z ∧ invalidCount (result st) = 2%Z ∧
  Js.keys (values st7) = ["7"; "email"; "age"].
Proof. by vm_compute. Qed.

(** A form with a field named [constructor] and no function for it is not
    built: the rules object inherits [Object] under that name, a function
    of one parameter, and the loop calls its element 0, which is
    [undefined]. With a function list of its own the field is like any
    other. *)
Example constructor_field :
  let F := {| initValues := [("constructor", Js.VString "")];
              fns := ∅; href := "" |} in
  let G := {| initValues := [("constructor", Js.VString "")];
              fns := {[ "constructor" := [required] ]}; href := "" |} in
  useForm_call F = Js.Throw "fn is not a function" ∧
  useForm_call G = Js.Return (useForm G) ∧
  errors (result (useForm G)) = [("constructor", "required")].
Proof. by vm_compute. Qed.

(** The entries of [errors] are enumerated in the order of the keys. *)
Example errors_in_key_order :
  errors (validate ["b"; "a"] [] ∅) = [("b", ""); ("a", "")] ∧
  errors (validate ["a"; "b"] [] ∅) = [("a", ""); ("b", "")].
Proof. by vm_compute. Qed.

(** A form without fields: the quotient 0 / 0 is not a number, and neither
    is [progress]. *)
Example progress_without_fields :
  progress (validate [] [] ∅) = S754_nan.
Proof. reflexivity. Qed.


(* ===================================================================== *)
(** ** Further properties of the validator                                *)
(* ===================================================================== *)

Lemma first_error_answer (values : Values) val (safeFns : list Fn) :
  first_error val values safeFns = "" ∨
  ∃ fn, fn ∈ safeFns ∧ first_error val values safeFns = fn val values.
Proof.
  induction safeFns as [|fn rest IH]; simpl; [by left|].
  destruct (String.eqb (fn val values) "") eqn:E; simpl.
  - destruct IH as [IH|(g & Hg & IH)]; [by left|right].
    exists g. split; [by right|done].
  - right. exists fn. split; [by left|done].
Qed.

Lemma validate_errors_keys (keys : list string) (values : Values) (fns : Fns)
    k :
  k ∈ Js.keys (errors (validate keys values fns)) ↔ k ∈ recorded_keys keys fns.
Proof.
  pose proof (validate_errors keys values fns k) as H.
  unfold lookup, Js.obj_lookup in H.
  destruct (decide (k ∈ recorded_keys keys fns)) as [Hin|Hout].
  - split; [done|]. intros _.
    destruct (decide (k ∈ Js.keys (errors (validate keys values fns))))
      as [|Hno]; [done|].
    apply lookup_None_keys in Hno. congruence.
  - split; [|done]. intros Hin. by apply lookup_None_keys in H.
Qed.

(** When [validate] returns, [errors] has an own property for each key of
    the list other than [__proto__] and for no other name, and a property
    is either the empty string or what one of the key's own functions
    answered on the values. *)
Theorem validate_errors_exactly_keys (keys : list string) (values : Values)
    (fns : Fns) :
  validate_throws keys fns = false →
  let r := validate keys values fns in
  (∀ k, k ∈ Js.keys (errors r) ↔ k ∈ keys ∧ k ≠ "__proto__") ∧
  ∀ k e, errors r !! k = Some e →
    e = "" ∨
    ∃ fn : Fn, fn ∈ default [] (fns !! k) ∧ e = fn (Js.get values k) values.
Proof.
  intros Hthrow r. subst r. split.
  - intros k. rewrite validate_errors_keys, recorded_keys_elem.
    by rewrite (validated_keys_all keys fns Hthrow).
  - intros k e. rewrite validate_errors.
    destruct (decide (k ∈ recorded_keys keys fns)); [|done]. intros [= <-].
    apply first_error_answer.
Qed.

Lemma filter_length_pos {A} (P : A → Prop) `{!∀ x, Decision (P x)}
    (l : list A) :
  (0 < length (filter P l))%nat ↔ ∃ x, x ∈ l ∧ P x.
Proof.
  split.
  - destruct (filter P l) as [|x l'] eqn:E; simpl; [lia|]. intros _.
    assert (Hx : x ∈ filter P l) by (rewrite E; left).
    apply list_elem_of_filter in Hx. exists x. tauto.
  - intros (x & Hx & HP).
    assert (Hin : x ∈ filter P l) by (apply list_elem_of_filter; tauto).
    destruct (filter P l); [by apply elem_of_nil in Hin|simpl; lia].
Qed.

Lemma validate_invalid_iff_count (keys : list string) (values : Values)
    (fns : Fns) :
  invalid (validate keys values fns) = true ↔
  (0 < invalidCount (validate keys values fns))%Z.
Proof.
  rewrite validate_invalid, validate_invalidCount.
  rewrite <- (filter_length_pos (λ k, key_error values fns k ≠ "")
                (validated_keys keys fns)). lia.
Qed.

(** The two counts stay between zero and the number of keys, and the flags
    agree with them: [invalid] is true exactly when [invalidCount] is
    positive, [valid] exactly when [validCount] is the number of keys. *)
Theorem validate_counts_and_flags (keys : list string) (values : Values)
    (fns : Fns) :
  let r := validate keys values fns in
  let n := Z.of_nat (length keys) in
  (0 ≤ invalidCount r ≤ n)%Z ∧
  (0 ≤ validCount r ≤ n)%Z ∧
  (invalid r = true ↔ (0 < invalidCount r)%Z) ∧
  (valid r = true ↔ validCount r = n).
Proof.
  intros r n. subst r n.
  pose proof (validate_counts keys values fns) as Hsum.
  pose proof (validate_invalidCount_bounds keys values fns) as Hinv.
  pose proof (validate_invalid_iff_count keys values fns) as Hflag.
  split; [lia|]. split; [lia|]. split; [done|].
  change (valid (validate keys values fns))
    with (negb (invalid (validate keys values fns))).
  destruct (invalid (validate keys values fns)); cbn [negb].
  - split; [done|]. intros Hn. exfalso.
    assert (0 < invalidCount (validate keys values fns))%Z by (by apply Hflag).
    lia.
  - split; [|done]. intros _.
    assert (¬ (0 < invalidCount (validate keys values fns))%Z)
      by (rewrite <- Hflag; done). lia.
Qed.

(** When [validate] returns, the result is valid exactly when every
    function of every key of the list answers the empty string on that
    key's value. *)
Theorem validate_valid_iff_all_pass (keys : list string) (values : Values)
    (fns : Fns) :
  validate_throws keys fns = false →
  validate_call keys values fns = Js.Return (validate keys values fns) ∧
  (valid (validate keys values fns) = true ↔
   ∀ k, k ∈ keys →
     Forall (λ fn : Fn, fn (Js.get values k) values = "")
            (default [] (fns !! k))).
Proof.
  intros Hthrow. split; [by rewrite validate_call_spec, Hthrow|].
  change (valid (validate keys values fns))
    with (negb (invalid (validate keys values fns))).
  rewrite negb_true_iff, <- not_true_iff_false, validate_invalid.
  rewrite (validated_keys_all keys fns Hthrow). split.
  - intros Hno k Hk. apply first_error_empty_iff.
    destruct (decide (key_error values fns k = "")) as [He|He]; [done|].
    exfalso. apply Hno. by exists k.
  - intros Hpass (k & Hk & He). apply He. by apply first_error_empty_iff, Hpass.
Qed.

Lemma validate_throws_iff (keys : list string) (fns : Fns) :
  validate_throws keys fns = true ↔ ∃ k, k ∈ keys ∧ throws_on fns k = true.
Proof.
  unfold validate_throws. rewrite existsb_exists.
  split; intros (k & Hk & H); exists k; (split; [|done]);
    by apply list_elem_of_In.
Qed.

(** [validate] throws a [TypeError] exactly when some key of the list has
    no function list of its own in the rules object and is the name of a
    method of [Object.prototype] that declares a parameter; the values
    play no part, so that a form that was built never throws when it
    validates again. *)
Theorem validate_call_throws_iff (keys : list string) (values : Values)
    (fns : Fns) :
  (validate_call keys values fns = Js.Throw "fn is not a function" ↔
   ∃ k n, k ∈ keys ∧ fns !! k = None ∧
          Js.object_prototype k = Some (Js.InheritedMethod (S n))) ∧
  (validate_call keys values fns ≠ Js.Throw "fn is not a function" →
   ∀ values', validate_call keys values' fns =
              Js.Return (validate keys values' fns)).
Proof.
  rewrite !validate_call_spec. split.
  - destruct (validate_throws keys fns) eqn:E.
    + split; [intros _|done]. apply validate_throws_iff in E as (k & Hk & H).
      unfold throws_on in H. destruct (fns !! k) eqn:Hf; [done|].
      destruct (Js.object_prototype k) as [[[|n]|]|] eqn:Hp; try done.
      by exists k, n.
    + split; [done|]. intros (k & n & Hk & Hf & Hp). exfalso.
      assert (validate_throws keys fns = true); [|congruence].
      apply validate_throws_iff. exists k. split; [done|].
      unfold throws_on. by rewrite Hf, Hp.
  - intros Hno values'. rewrite validate_call_spec.
    by destruct (validate_throws keys fns).
Qed.

Lemma calls_made_bound (values : Values) val (safeFns : list Fn) :
  (calls_made val values safeFns ≤ length safeFns)%nat.
Proof.
  induction safeFns as [|fn rest IH]; simpl; [done|].
  destruct (negb _); lia.
Qed.

Lemma key_calls_NoDup values fns k : NoDup (key_calls values fns k).
Proof.
  unfold key_calls. apply NoDup_fmap_2_strong; [|apply NoDup_seq].
  intros i j _ _ Heq. by inversion Heq.
Qed.

(** [validate] calls a function only for a key of the list and at an index
    of that key's own list, and, the keys being distinct, calls no function
    twice. *)
Theorem validate_calls_once (keys : list string) (values : Values)
    (fns : Fns) :
  NoDup keys →
  NoDup (validate_calls keys values fns) ∧
  ∀ k j, (k, j) ∈ validate_calls keys values fns →
    k ∈ keys ∧ (j < length (default [] (fns !! k)))%nat.
Proof.
  intros Hnd. rewrite validate_calls_flat.
  assert (Hnd' : NoDup (validated_keys keys fns)).
  { destruct (validated_keys_prefix keys fns) as [rest Hrest].
    rewrite <- Hrest in Hnd. by apply NoDup_app in Hnd as [? _]. }
  split.
  - induction Hnd' as [|k rest Hk Hrest IH]; simpl; [constructor|].
    apply NoDup_app. split; [apply key_calls_NoDup|]. split; [|done].
    intros [k' j] Hin Hin'. apply key_calls_elem in Hin as [-> _].
    apply list_elem_of_In, in_flat_map in Hin' as (k'' & Hk'' & Hin').
    apply list_elem_of_In, key_calls_elem in Hin' as [-> _].
    by apply Hk, list_elem_of_In.
  - intros k j Hin.
    apply list_elem_of_In, in_flat_map in Hin as (k' & Hk' & Hin).
    apply list_elem_of_In, key_calls_elem in Hin as [-> Hj].
    split; [by apply (validated_keys_elem keys fns), list_elem_of_In|].
    pose proof (calls_made_bound values (Js.get values k')
                  (default [] (fns !! k'))). lia.
Qed.

Lemma validate_throws_permutation (keys keys' : list string) (fns : Fns) :
  keys ≡ₚ keys' → validate_throws keys fns = validate_throws keys' fns.
Proof.
  intros Hp. apply eq_true_iff_eq. rewrite !validate_throws_iff.
  split; intros (k & Hk & H); exists k; (split; [|done]).
  - by rewrite <- Hp.
  - by rewrite Hp.
Qed.

(** When [validate] returns, the flags, the counts, [progress] and what
    [errors] holds for each name do not depend on the order in which the
    keys are listed; the order in which [errors] enumerates its entries
    does. *)
Theorem validate_permutation (keys keys' : list string) (values : Values)
    (fns : Fns) :
  keys ≡ₚ keys' →
  validate_throws keys fns = false →
  let r := validate keys values fns in
  let r' := validate keys' values fns in
  validate_call keys' values fns = Js.Return r' ∧
  invalid r = invalid r' ∧
  valid r = valid r' ∧
  validCount r = validCount r' ∧
  invalidCount r = invalidCount r' ∧
  progress r = progress r' ∧
  ∀ k, errors r !! k = errors r' !! k.
Proof.
  intros Hp Hthrow r r'. subst r r'.
  assert (Hthrow' : validate_throws keys' fns = false)
    by (by rewrite <- (validate_throws_permutation keys keys' fns Hp)).
  pose proof (validated_keys_all keys fns Hthrow) as Hall.
  pose proof (validated_keys_all keys' fns Hthrow') as Hall'.
  assert (Hlen : length keys = length keys') by by apply Permutation_length.
  assert (Hcount : invalidCount (validate keys values fns) =
                   invalidCount (validate keys' values fns)).
  { rewrite !validate_invalidCount, Hall, Hall'. f_equal.
    apply Permutation_length. by apply filter_Permutation. }
  assert (Hinv : invalid (validate keys values fns) =
                 invalid (validate keys' values fns)).
  { apply eq_true_iff_eq. rewrite !validate_invalid, Hall, Hall'.
    split; intros (k & Hk & He); exists k; (split; [|done]).
    - by rewrite <- Hp.
    - by rewrite Hp. }
  assert (Hvc : validCount (validate keys values fns) =
                validCount (validate keys' values fns)).
  { pose proof (validate_counts keys values fns).
    pose proof (validate_counts keys' values fns). lia. }
  split; [by rewrite validate_call_spec, Hthrow'|].
  split; [done|].
  split; [by change (negb (invalid (validate keys values fns)) =
                     negb (invalid (validate keys' values fns)));
          rewrite Hinv|].
  split; [done|]. split; [done|]. split.
  - by rewrite !validate_progress, Hvc, Hlen.
  - intros k. rewrite !validate_errors.
    destruct (decide (k ∈ recorded_keys keys fns)) as [Hin|Hout].
    + rewrite decide_True; [done|].
      apply recorded_keys_elem. apply recorded_keys_elem in Hin.
      rewrite Hall in Hin. rewrite Hall', <- Hp. done.
    + rewrite decide_False; [done|]. intros Hin. apply Hout.
      apply recorded_keys_elem. apply recorded_keys_elem in Hin.
      rewrite Hall' in Hin. rewrite Hall, Hp. done.
Qed.

(* ===================================================================== *)
(** ** Further properties of the state container                          *)
(* ===================================================================== *)

Section Calls.
Context (F : Setup).

Lemma run_preserves (P : State → Prop) (st : State) (cs : list Call) :
  P st → (∀ s c, P s → P (call F s c)) → P (run F st cs).
Proof.
  intros H0 Hstep. unfold run. revert st H0.
  induction cs as [|c cs IH]; intros st Hst; simpl; [done|].
  apply IH. by apply Hstep.
Qed.

Lemma change_accepts_true st e :
  change_accepts F st e = true →
  change F st e = set F st (target_name e) (Js.VString (target_value e)).
Proof.
  unfold change_accepts, change.
  destruct (negb (isDebugAvailable (href F))); [done|]. simpl.
  destruct (String.eqb (target_name e) ""); [done|].
  destruct (Js.includes _ _); [|done].
  by destruct (String.eqb (Js.typeof _) _).
Qed.

Lemma change_accepts_false st e :
  change_accepts F st e = false →
  isDebugAvailable (href F) = true ∧ ∃ msg, change F st e = console_error st msg.
Proof.
  unfold change_accepts, change.
  destruct (isDebugAvailable (href F)); [|done]. simpl.
  destruct (String.eqb (target_name e) ""); [eauto|].
  destruct (Js.includes _ _); [|simpl; eauto].
  destruct (String.eqb (Js.typeof _) _); [done|simpl; eauto].
Qed.

(** The four flags of the metadata always come in complementary pairs. *)
Theorem metadata_flags_complementary (cs : list Call) :
  let m := metadata (run F (useForm F) cs) in
  untouched m = negb (touched m) ∧ unconfirmed m = negb (confirmed m).
Proof.
  apply (run_preserves
           (λ st, untouched (metadata st) = negb (touched (metadata st)) ∧
                  unconfirmed (metadata st) = negb (confirmed (metadata st))));
    [done|].
  intros st c Hst. destruct c as [k v|e| | | |p]; simpl; try done.
  destruct (change_cases F st e) as [[msg ->]| ->]; done.
Qed.

(** The stored result is at all times the validation of the stored values
    under the form's keys and functions, so that [confirm()] changes
    neither the values nor the result: it only confirms the metadata and
    re-renders. *)
Theorem confirm_keeps_values_and_result (cs : list Call) :
  let st := run F (useForm F) cs in
  result st = validate (keys F) (values st) (fns F) ∧
  values (confirm F st) = values st ∧
  result (confirm F st) = result st.
Proof.
  intros st. subst st. split; [apply result_consistent|].
  split; [done|]. by rewrite result_consistent.
Qed.

(** What one call does to the flags, the counters and the console. *)
Lemma call_effects st c :
  let st' := call F st c in
  (is_reset c = false →
   confirmed (metadata st') = confirmed (metadata st) || is_confirming c) ∧
  (is_reset c = false →
   touched (metadata st') =
   touched (metadata st) ||
   match call_event F st c with Some _ => true | None => false end) ∧
  counter st' =
    (counter st + length (option_list (call_event F st c)) +
     (if is_silent_update c then 1 else 0))%nat ∧
  prevented st' = (prevented st + (if is_submit c then 1 else 0))%nat ∧
  (isDebugAvailable (href F) = false → console st' = console st).
Proof.
  destruct c as [k v|e| | | |p]; simpl.
  2: destruct (change_accepts F st e) eqn:Hacc;
     [rewrite (change_accepts_true st e Hacc)
     |destruct (change_accepts_false st e Hacc) as [Hd [msg ->]]]; simpl.
  all: repeat split; intros; rewrite ?orb_false_r, ?orb_true_r;
    solve [done | lia | congruence].
Qed.

(** Until the next [reset()], a confirmed form stays confirmed and a
    touched form stays touched: without a reset among the calls, the form
    is confirmed afterwards exactly when it was before or one of the calls
    is [confirm] or [submit], and touched exactly when it was before or one
    of the calls passed an event on. *)
Theorem flags_persist_until_reset (st : State) (cs : list Call) :
  forallb (λ c, negb (is_reset c)) cs = true →
  confirmed (metadata (run F st cs)) =
    confirmed (metadata st) || existsb is_confirming cs ∧
  touched (metadata (run F st cs)) =
    touched (metadata st) ||
    match emitted F st cs with [] => false | _ => true end.
Proof.
  revert st. induction cs as [|c cs IH]; intros st Hcs; simpl.
  - by rewrite !orb_false_r.
  - simpl in Hcs. apply andb_prop in Hcs as [Hc Hcs].
    apply negb_true_iff in Hc.
    destruct (call_effects st c) as (Hconf & Htouch & _).
    destruct (IH (call F st c) Hcs) as [IHc IHt].
    change (run F st (c :: cs)) with (run F (call F st c) cs).
    rewrite IHc, IHt, (Hconf Hc), (Htouch Hc). split.
    + by rewrite orb_assoc.
    + destruct (call_event F st c); simpl.
      * by rewrite !orb_true_r.
      * by rewrite orb_false_r.
Qed.

(** Every call that passes an event on re-renders once, and so do
    [confirm], [submit] and [reset], which pass none; nothing else
    re-renders. [preventDefault] is called once per [submit] and by nothing
    else. *)
Theorem renders_and_prevented_count (st : State) (cs : list Call) :
  counter (run F st cs) =
    (counter st + length (emitted F st cs) +
     length (List.filter is_silent_update cs))%nat ∧
  prevented (run F st cs) =
    (prevented st + length (List.filter is_submit cs))%nat.
Proof.
  revert st. induction cs as [|c cs IH]; intros st; simpl; [lia|].
  change (run F st (c :: cs)) with (run F (call F st c) cs).
  destruct (IH (call F st c)) as [IHc IHp].
  destruct (call_effects st c) as (_ & _ & Hc & Hp & _).
  rewrite IHc, IHp, Hc, Hp, length_app.
  destruct (is_silent_update c), (is_submit c); simpl; lia.
Qed.

(** Served from an address without [localhost], the form never writes to
    the console. *)
Theorem console_silent_outside_debug (st : State) (cs : list Call) :
  isDebugAvailable (href F) = false →
  console (run F st cs) = console st.
Proof.
  intros Hd. apply (run_preserves (λ s, console s = console st)); [done|].
  intros s c Hs. destruct (call_effects s c) as (_ & _ & _ & _ & Hcon).
  by rewrite (Hcon Hd).
Qed.

End Calls.

(* ===================================================================== *)
(** ** Further properties of the change notifier                          *)
(* ===================================================================== *)

Section Delivery.
Context (F : Setup).

Lemma call_delivers st c i s :
  changed st !! i = Some s →
  ∃ s', changed (call F st c) !! i = Some s' ∧
        Rx.sub_filter s' = Rx.sub_filter s ∧
        Rx.sub_received s' =
          Rx.sub_received s ++
          List.filter (Rx.sub_filter s) (option_list (call_event F st c)).
Proof.
  intros Hs.
  assert (Hset : ∀ k v, ∃ s', changed (set F st k v) !! i = Some s' ∧
            Rx.sub_filter s' = Rx.sub_filter s ∧
            Rx.sub_received s' =
              Rx.sub_received s ++
              List.filter (Rx.sub_filter s) [{| key := k; value := v |}]).
  { intros k v. exists (Rx.deliver {| key := k; value := v |} s). split.
    - simpl. unfold Rx.next. by rewrite list_lookup_fmap, Hs.
    - unfold Rx.deliver. simpl.
      destruct (Rx.sub_filter s _); simpl; [done|by rewrite app_nil_r]. }
  assert (Hsame : ∀ st', changed st' = changed st →
            ∃ s', changed st' !! i = Some s' ∧
                  Rx.sub_filter s' = Rx.sub_filter s ∧
                  Rx.sub_received s' = Rx.sub_received s ++ List.filter (Rx.sub_filter s) []).
  { intros st' ->. exists s. simpl. by rewrite app_nil_r. }
  destruct c as [k v|e| | | |p]; simpl; try (by apply Hsame).
  - apply Hset.
  - destruct (change_accepts F st e) eqn:Hacc.
    + rewrite (change_accepts_true F st e Hacc). apply Hset.
    + destruct (change_accepts_false F st e Hacc) as [_ [msg ->]].
      by apply Hsame.
  - exists s. simpl. rewrite app_nil_r. split; [|done].
    unfold Rx.subscribe. by apply lookup_app_l_Some.
Qed.

(** A subscriber is handed exactly the events passed on after it
    subscribed that satisfy its predicate, in the order of the calls. *)
Lemma subscriber_receives_matching st cs i s :
  changed st !! i = Some s →
  Rx.received i (changed (run F st cs)) =
  Some (Rx.sub_received s ++
        List.filter (Rx.sub_filter s) (emitted F st cs)).
Proof.
  revert st s. induction cs as [|c cs IH]; intros st s Hs.
  - simpl. unfold Rx.received. by rewrite Hs, app_nil_r.
  - destruct (call_delivers st c i s Hs) as (s' & Hs' & Hf & Hr).
    change (run F st (c :: cs)) with (run F (call F st c) cs).
    rewrite (IH _ _ Hs'), Hf, Hr. simpl.
    by rewrite List.filter_app, app_assoc.
Qed.

(** A subscription to [on(key, filterFn)] is handed every later event
    that satisfies [filterFn] (or has the key, when [filterFn] is left
    out), each once and in the order of the calls, and nothing else; no
    earlier event is replayed to it. *)
Theorem on_subscription_receives_matching (st : State) (k : string)
    (filterFn : option (OnEvent → bool)) (cs : list Call) :
  let st1 := subscribe st (on k filterFn) in
  Rx.received (length (changed st)) (changed st1) = Some [] ∧
  Rx.received (length (changed st)) (changed (run F st1 cs)) =
  Some (List.filter (on k filterFn) (emitted F st1 cs)).
Proof.
  intros st1.
  assert (H0 : changed st1 !! length (changed st) =
            Some {| Rx.sub_filter := on k filterFn; Rx.sub_received := [] |}).
  { simpl. unfold Rx.subscribe. by rewrite list_lookup_middle. }
  split.
  - unfold Rx.received. by rewrite H0.
  - by rewrite (subscriber_receives_matching st1 cs _ _ H0).
Qed.

(** A sequence of [set] calls passes on one event per call, with the key
    and the value of the call, in order. *)
Lemma emitted_of_sets st (kvs : list (string * Js.value)) :
  emitted F st ((λ kv, CallSet kv.1 kv.2) <$> kvs) =
  (λ kv, {| key := kv.1; value := kv.2 |}) <$> kvs.
Proof.
  revert st. induction kvs as [|[k v] kvs IH]; intros st; simpl; [done|].
  by rewrite IH.
Qed.

End Delivery.

Section DeliveryOfSets.
Context (F : Setup).

(** After a sequence of [set] calls, a subscription to [on(key)] has been
    handed one event for each call on [key], with that call's value, in
    the order of the calls, and no event of any other call. *)
Theorem on_key_receives_its_sets (st : State) (k : string)
    (kvs : list (string * Js.value)) :
  Rx.received (length (changed st))
    (changed (run F (subscribe st (on k None))
                    ((λ kv, CallSet kv.1 kv.2) <$> kvs))) =
  Some ((λ kv, {| key := kv.1; value := kv.2 |}) <$>
        List.filter (λ kv, String.eqb kv.1 k) kvs).
Proof.
  assert (H0 : changed (subscribe st (on k None)) !! length (changed st) =
            Some {| Rx.sub_filter := on k None; Rx.sub_received := [] |}).
  { simpl. unfold Rx.subscribe. by rewrite list_lookup_middle. }
  rewrite (subscriber_receives_matching F _ _ _ _ H0), emitted_of_sets.
  simpl. f_equal.
  induction kvs as [|[k' v] kvs IH]; simpl; [done|].
  destruct (String.eqb k' k); simpl; [f_equal|]; exact IH.
Qed.

End DeliveryOfSets.

(* ===================================================================== *)
(** ** Further properties of the values                                   *)
(* ===================================================================== *)

Section Values.
Context (F : Setup).

(** Two [set] calls in a row on one key leave the values, the result and
    the metadata that the second alone would leave. *)
Theorem set_twice_last_wins (st : State) (k : string) (v w : Js.value) :
  values (set F (set F st k v) k w) = values (set F st k w) ∧
  result (set F (set F st k v) k w) = result (set F st k w) ∧
  metadata (set F (set F st k v) k w) = metadata (set F st k w).
Proof. simpl. by rewrite put_put_same. Qed.

(** [set] calls on two different keys, one of them already a property of
    the values, leave the same values, result and metadata in either
    order. *)
Theorem set_commutes (st : State) (k1 k2 : string) (v1 v2 : Js.value) :
  k1 ≠ k2 → k1 ∈ Js.keys (values st) →
  values (set F (set F st k1 v1) k2 v2) =
    values (set F (set F st k2 v2) k1 v1) ∧
  result (set F (set F st k1 v1) k2 v2) =
    result (set F (set F st k2 v2) k1 v1) ∧
  metadata (set F (set F st k1 v1) k2 v2) =
    metadata (set F (set F st k2 v2) k1 v1).
Proof. intros Hne Hin. simpl. by rewrite (put_put_comm _ k1 v1 k2 v2). Qed.

Lemma call_values_keys st c :
  Js.keys (values st) `sublist_of` Js.keys (values (call F st c)) ∨
  values (call F st c) = initValues F.
Proof.
  assert (Hset : ∀ k v,
            Js.keys (values st) `sublist_of` Js.keys (values (set F st k v))).
  { intros k v. apply keys_put_sublist. }
  destruct c as [k v|e| | | |p]; simpl; try by left.
  - left. apply Hset.
  - destruct (change_cases F st e) as [[msg ->]| ->]; left; [done|apply Hset].
  - by right.
Qed.

Lemma values_keys_sublist (cs : list Call) :
  keys F `sublist_of` Js.keys (values (run F (useForm F) cs)).
Proof.
  apply (run_preserves F (λ st, keys F `sublist_of` Js.keys (values st)));
    [done|].
  intros st c Hst. destruct (call_values_keys st c) as [H|H].
  - by etrans.
  - by rewrite H.
Qed.

(** The values never lose a property of the initial values and never
    change their order: the keys of the form are always among the keys of
    the values, in the order of the form. *)
Theorem values_keep_form_keys (cs : list Call) :
  keys F `sublist_of` Js.keys (values (run F (useForm F) cs)).
Proof. apply values_keys_sublist. Qed.

(** When every call that names a field names a key of the form, the keys
    of the values are exactly the keys of the form, in their order. *)
Theorem values_keys_fixed (cs : list Call) :
  Forall (call_key_known F) cs →
  Js.keys (values (run F (useForm F) cs)) = keys F.
Proof.
  intros Hcs. unfold run.
  generalize (eq_refl : Js.keys (values (useForm F)) = keys F).
  generalize (useForm F). induction Hcs as [|c cs Hc _ IH]; intros st Hst.
  - done.
  - simpl. apply IH.
    assert (Hset : ∀ k v, k ∈ keys F →
              Js.keys (values (set F st k v)) = keys F).
    { intros k v Hk. simpl. rewrite keys_put_elem; [done|by rewrite Hst]. }
    destruct c as [k v|e| | | |p]; simpl; try done.
    + by apply Hset.
    + destruct (change_cases F st e) as [[msg ->]| ->]; [done|].
      by apply Hset.
Qed.

End Values.

(* ===================================================================== *)
(** ** Further properties of [isDebugAvailable] and [change]              *)
(* ===================================================================== *)

Lemma prefix_iff_append (s1 s2 : string) :
  String.prefix s1 s2 = true ↔ ∃ after, s2 = String.append s1 after.
Proof.
  revert s2. induction s1 as [|a s1 IH]; intros s2.
  - split; [intros _; by exists s2|intros _; by destruct s2].
  - destruct s2 as [|b s2]; simpl; [split; [done|by intros [? ?]]|].
    destruct (Ascii.ascii_dec a b) as [->|Hne].
    + rewrite IH. split; intros [after H]; exists after.
      * by rewrite H.
      * change (String b s2 = String b (s1 +:+ after)) in H. congruence.
    + split; [done|]. intros [after H].
      change (String b s2 = String a (s1 +:+ after)) in H. congruence.
Qed.

Lemma index_iff_occurs (needle s : string) :
  needle ≠ "" →
  (∃ m, String.index 0 needle s = Some m) ↔ occurs_in needle s.
Proof.
  intros Hne. unfold occurs_in. induction s as [|b s IH].
  - destruct needle as [|a needle]; [done|]. simpl. split.
    + by intros [m ?].
    + intros (before & after & H). by destruct before.
  - cbn [String.index]. destruct (String.prefix needle (String b s)) eqn:Hp.
    + split; [intros _|intros _; by exists 0%nat].
      apply prefix_iff_append in Hp as [after Hafter].
      by exists "", after.
    + split.
      * intros [m Hm]. destruct (String.index 0 needle s) as [m'|] eqn:Hi; [|done].
        destruct (proj1 IH) as (before & after & H); [by exists m'|].
        exists (String b before), after. by rewrite H.
      * intros (before & after & H). destruct before as [|c before].
        -- change (String b s = needle +:+ after) in H.
           assert (String.prefix needle (String b s) = true)
             by (apply prefix_iff_append; by exists after). congruence.
        -- change (String b s = String c (before +:+ (needle +:+ after))) in H.
           injection H as -> H.
           destruct (proj2 IH) as [m Hm]; [by exists before, after|].
           rewrite Hm. by eexists.
Qed.

(** The debug posture is that of an address in which [localhost] occurs. *)
Theorem isDebugAvailable_iff_localhost_occurs (href : string) :
  isDebugAvailable href = true ↔ occurs_in "localhost" href.
Proof.
  rewrite <- index_iff_occurs by done. unfold isDebugAvailable.
  destruct (String.index 0 "localhost" href) as [m|].
  - split; [intros _; by exists m|done].
  - split; [done|by intros [m ?]].
Qed.

Section Change.
Context (F : Setup).

(** In the debug posture, an event whose name is a key of the form and
    whose field holds a string is handed to [set] as it is. *)
Theorem change_in_debug_is_set (st : State) (e : InputChange) :
  isDebugAvailable (href F) = true →
  target_name e ∈ keys F →
  target_name e ≠ "" →
  Js.typeof (Js.get (values st) (target_name e)) = "string" →
  change F st e = set F st (target_name e) (Js.VString (target_value e)).
Proof.
  intros Hd Hk Hn Ht. apply change_accepts_true. unfold change_accepts.
  rewrite Hd, (proj2 (includes_true _ _) Hk), Ht.
  by rewrite (proj2 (String.eqb_neq _ _) Hn).
Qed.

(** In the debug posture [change] never adds a property to the values and
    never changes the [typeof] of a stored value. *)
Theorem change_in_debug_keeps_shape (cs : list Call) (e : InputChange) :
  isDebugAvailable (href F) = true →
  let st := run F (useForm F) cs in
  Js.keys (values (change F st e)) = Js.keys (values st) ∧
  ∀ k, Js.typeof (Js.get (values (change F st e)) k) =
       Js.typeof (Js.get (values st) k).
Proof.
  intros Hd st. destruct (change_accepts F st e) eqn:Hacc.
  - rewrite (change_accepts_true F st e Hacc).
    unfold change_accepts in Hacc. rewrite Hd in Hacc. simpl in Hacc.
    apply andb_prop in Hacc as [Hacc Ht]. apply andb_prop in Hacc as [_ Hk].
    apply includes_true in Hk. apply String.eqb_eq in Ht. split.
    + simpl. apply keys_put_elem.
      eapply elem_of_sublist; [exact Hk|apply values_keys_sublist].
    + intros k. simpl. destruct (decide (k = target_name e)) as [->|Hne].
      * by rewrite get_put_eq.
      * by rewrite get_put_ne.
  - by destruct (change_accepts_false F st e Hacc) as [_ [msg ->]].
Qed.

(** [set] on one key leaves the error of another key as it was, when the
    functions of that other key read nothing but the field's own value. *)
Theorem set_keeps_unrelated_error (cs : list Call) (k : string)
    (v : Js.value) (k' : string) :
  k' ≠ k →
  Forall own_value_only (default [] (fns F !! k')) →
  let st := run F (useForm F) cs in
  errors (result (set F st k v)) !! k' = errors (result st) !! k'.
Proof.
  intros Hne Hown st.
  change (result (set F st k v))
    with (validate (keys F) (Js.put (values st) k v) (fns F)).
  subst st. rewrite result_consistent, !validate_errors.
  destruct (decide (k' ∈ recorded_keys (keys F) (fns F))); [|done].
  f_equal. unfold key_error. rewrite get_put_ne by done.
  induction Hown as [|fn rest Hfn _ IH]; simpl; [done|].
  rewrite (Hfn _ (Js.put _ k v) (values (run F (useForm F) cs))).
  by rewrite IH.
Qed.

End Change.

(** A form that was built never throws afterwards: after any sequence of
    calls the call of [validate] on the stored values returns the stored
    result, and the call that [set] makes returns the result [set] stores,
    whatever the key and the value. *)
Theorem built_form_validation_returns (F : Setup) (cs : list Call) :
  useForm_call F = Js.Return (useForm F) →
  let st := run F (useForm F) cs in
  validate_call (keys F) (values st) (fns F) = Js.Return (result st) ∧
  ∀ k v, validate_call (keys F) (Js.put (values st) k v) (fns F) =
         Js.Return (result (set F st k v)).
Proof.
  unfold useForm_call. rewrite validate_call_spec.
  destruct (validate_throws (keys F) (fns F)) eqn:E; [done|].
  intros _. cbn zeta. split.
  - by rewrite validate_call_spec, E, result_consistent.
  - intros k v. by rewrite validate_call_spec, E.
Qed.

(* ===================================================================== *)
(** ** Further properties of progress                                     *)
(* ===================================================================== *)

(** For a form of one to a hundred fields, [progress] is the number read
    from a numeral [n / 100] that lies within half a hundredth of the
    exact percentage of valid fields; it is exactly 100 when the form is
    valid and exactly 0 when no field is. *)
Theorem progress_of_small_form (keys : list string) (values : Values)
    (fns : Fns) :
  (0 < length keys ≤ 100)%nat →
  let r := validate keys values fns in
  (∃ n, progress r = Js.div (Js.of_Z n) (Js.of_Z 100) ∧
        nearest_hundredths (validCount r) (Z.of_nat (length keys)) n) ∧
  (valid r = true → progress r = Js.of_Z 100) ∧
  (validCount r = 0%Z → progress r = Js.of_Z 0).
Proof.
  intros Hlen r.
  destruct (progress_nearest_hundredths keys values fns Hlen) as (n & Hn & Hnear).
  fold r in Hn, Hnear. unfold nearest_hundredths in Hnear.
  split; [by exists n|]. split.
  - intros Hvalid.
    assert (Hall : validCount r = Z.of_nat (length keys)).
    { pose proof (validate_counts keys values fns) as Hsum.
      pose proof (validate_invalid_iff_count keys values fns) as Hflag.
      pose proof (validate_invalidCount_bounds keys values fns) as Hinv.
      fold r in Hsum, Hflag, Hinv.
      change (valid r) with (negb (invalid r)) in Hvalid.
      destruct (invalid r); [done|].
      assert (¬ (0 < invalidCount r)%Z) by (rewrite <- Hflag; done). lia. }
    rewrite Hall in Hnear.
    assert (n = 10000%Z) as -> by nia.
    rewrite Hn. by vm_compute.
  - intros Hnone. rewrite Hnone in Hnear.
    assert (n = 0%Z) as -> by nia.
    rewrite Hn. by vm_compute.
Qed.

(* ===================================================================== *)
(** ** The further properties at the scenario's form                      *)
(* ===================================================================== *)

Lemma scenario_keys_NoDup : NoDup (keys scenario).
Proof.
  change (keys scenario) with ["email"; "age"].
  apply NoDup_cons. split; [|apply NoDup_singleton].
  intros H%list_elem_of_singleton. discriminate H.
Defined.

Lemma validate_calls_once_scenario :
  NoDup (keys scenario) ∧
  NoDup (validate_calls (keys scenario) (initValues scenario) (fns scenario)).
Proof.
  split; [exact scenario_keys_NoDup|].
  exact (proj1 (validate_calls_once (keys scenario) (initValues scenario)
                  (fns scenario) scenario_keys_NoDup)).
Defined.

Lemma validate_permutation_scenario :
  ["email"; "age"] ≡ₚ ["age"; "email"] ∧
  progress (validate ["email"; "age"] (initValues scenario) (fns scenario)) =
  progress (validate ["age"; "email"] (initValues scenario) (fns scenario)).
Proof.
  assert (Hp : ["email"; "age"] ≡ₚ ["age"; "email"]) by apply perm_swap.
  split; [exact Hp|].
  destruct (validate_permutation _ _ (initValues scenario) (fns scenario) Hp)
    as (_ & _ & _ & _ & _ & Hprogress & _); [reflexivity|].
  exact Hprogress.
Defined.

Lemma flags_persist_until_reset_scenario :
  let cs := [CallConfirm; CallSet "email" (Js.VString "a@b.com")] in
  forallb (λ c, negb (is_reset c)) cs = true ∧
  confirmed (metadata (run scenario (useForm scenario) cs)) = true ∧
  touched (metadata (run scenario (useForm scenario) cs)) = true.
Proof.
  intros cs.
  assert (Hcs : forallb (λ c, negb (is_reset c)) cs = true) by reflexivity.
  split; [exact Hcs|].
  destruct (flags_persist_until_reset scenario (useForm scenario) cs Hcs)
    as [Hc Ht].
  split; [exact Hc|exact Ht].
Defined.

Lemma console_silent_outside_debug_scenario :
  let cs := [CallChange {| target_value := "x"; target_name := "" |}] in
  isDebugAvailable (href scenario_deployed) = false ∧
  console (run scenario_deployed (useForm scenario_deployed) cs) = [].
Proof.
  intros cs.
  assert (Hd : isDebugAvailable (href scenario_deployed) = false)
    by reflexivity.
  split; [exact Hd|].
  exact (console_silent_outside_debug scenario_deployed
           (useForm scenario_deployed) cs Hd).
Defined.

Lemma set_commutes_scenario :
  let st := useForm scenario in
  let v1 := Js.VString "a@b.com" in
  let v2 := Js.VNumber (Js.of_Z 20) in
  "email" ≠ "age" ∧
  "email" ∈ Js.keys (values st) ∧
  values (set scenario (set scenario st "email" v1) "age" v2) =
  values (set scenario (set scenario st "age" v2) "email" v1).
Proof.
  intros st v1 v2.
  assert (Hne : "email" ≠ "age") by discriminate.
  assert (Hin : "email" ∈ Js.keys (values st))
    by (apply includes_true; reflexivity).
  split; [exact Hne|]. split; [exact Hin|].
  exact (proj1 (set_commutes scenario st "email" "age" v1 v2 Hne Hin)).
Defined.

Lemma values_keys_fixed_scenario :
  let cs := [CallSet "email" (Js.VString "a@b.com"); CallConfirm] in
  Forall (call_key_known scenario) cs ∧
  Js.keys (values (run scenario (useForm scenario) cs)) = keys scenario.
Proof.
  intros cs.
  assert (Hcs : Forall (call_key_known scenario) cs).
  { constructor; [|constructor; [exact I|constructor]].
    apply includes_true. reflexivity. }
  split; [exact Hcs|].
  exact (values_keys_fixed scenario cs Hcs).
Defined.

Lemma change_in_debug_is_set_scenario :
  let e := {| target_value := "a@b.com"; target_name := "email" |} in
  isDebugAvailable (href scenario) = true ∧
  change scenario (useForm scenario) e =
  set scenario (useForm scenario) "email" (Js.VString "a@b.com").
Proof.
  intros e. split; [reflexivity|].
  apply (change_in_debug_is_set scenario (useForm scenario) e).
  - reflexivity.
  - apply includes_true. reflexivity.
  - discriminate.
  - reflexivity.
Defined.

Lemma change_in_debug_keeps_shape_scenario :
  let e := {| target_value := "a@b.com"; target_name := "email" |} in
  let st := run scenario (useForm scenario) [] in
  isDebugAvailable (href scenario) = true ∧
  Js.keys (values (change scenario st e)) = Js.keys (values st).
Proof.
  intros e st.
  assert (Hd : isDebugAvailable (href scenario) = true) by reflexivity.
  split; [exact Hd|].
  exact (proj1 (change_in_debug_keeps_shape scenario [] e Hd)).
Defined.

Lemma set_keeps_unrelated_error_scenario :
  let st := run scenario (useForm scenario) [] in
  "age" ≠ "email" ∧
  Forall own_value_only (default [] (fns scenario !! "age")) ∧
  errors (result (set scenario st "email" (Js.VString "a@b.com"))) !! "age" =
  errors (result st) !! "age".
Proof.
  intros st.
  assert (Hne : "age" ≠ "email") by discriminate.
  assert (Hown : Forall own_value_only (default [] (fns scenario !! "age"))).
  { change (default [] (fns scenario !! "age")) with [at_least_18].
    constructor; [|constructor]. intros val values1 values2. reflexivity. }
  split; [exact Hne|]. split; [exact Hown|].
  exact (set_keeps_unrelated_error scenario [] "email"
           (Js.VString "a@b.com") "age" Hne Hown).
Defined.

Lemma progress_of_small_form_scenario :
  (0 < length (keys scenario) ≤ 100)%nat ∧
  progress (validate (keys scenario) (values scenario_age) (fns scenario)) =
  Js.of_Z 100.
Proof.
  assert (Hlen : (0 < length (keys scenario) ≤ 100)%nat) by (simpl; lia).
  split; [exact Hlen|].
  destruct (progress_of_small_form (keys scenario) (values scenario_age)
              (fns scenario) Hlen) as (_ & Hvalid & _).
  apply Hvalid. reflexivity.
Defined.

Lemma validate_errors_exactly_keys_proto :
  validate_throws ["__proto__"; "a"] ∅ = false ∧
  ∀ k, k ∈ Js.keys (errors (validate ["__proto__"; "a"] proto_values ∅)) ↔
       k ∈ ["__proto__"; "a"] ∧ k ≠ "__proto__".
Proof.
  assert (H : validate_throws ["__proto__"; "a"] ∅ = false) by reflexivity.
  split; [exact H|].
  exact (proj1 (validate_errors_exactly_keys ["__proto__"; "a"]
                  proto_values ∅ H)).
Defined.

Lemma validate_valid_iff_all_pass_scenario :
  validate_throws (keys scenario) (fns scenario) = false ∧
  validate_call (keys scenario) (values scenario_age) (fns scenario) =
  Js.Return (validate (keys scenario) (values scenario_age) (fns scenario)).
Proof.
  assert (H : validate_throws (keys scenario) (fns scenario) = false)
    by reflexivity.
  split; [exact H|].
  exact (proj1 (validate_valid_iff_all_pass (keys scenario)
                  (values scenario_age) (fns scenario) H)).
Defined.

Lemma built_form_validation_returns_scenario :
  useForm_call scenario = Js.Return (useForm scenario) ∧
  validate_call (keys scenario) (values scenario_age) (fns scenario) =
  Js.Return (result scenario_age).
Proof.
  assert (H : useForm_call scenario = Js.Return (useForm scenario))
    by reflexivity.
  split; [exact H|].
  exact (proj1 (built_form_validation_returns scenario
                  [CallSet "email" (Js.VString "a@b.com");
                   CallSet "age" (Js.VNumber (Js.of_Z 20))] H)).
Defined.
